(** * chat-server.c: a libev/winsock broadcast relay

    A shallow embedding of [src/chat-server/chat-server.c]: the two libev
    callbacks [read_cb] and [accept_cb], the start-up sequence of [main],
    and the dispatch loop as a transition system over an explicit process
    state.  System calls whose answers the program cannot predict
    ([accept], [recv], [send], [calloc], ...) take their answers from an
    environment record that is an argument of the callback. *)

From Stdlib Require Import Strings.Byte.
From stdpp Require Import gmap strings list.

Open Scope Z_scope.

(** ** Constants of the platform headers *)

(** [(SOCKET)(~0)] of WinSock2.h, with a 64-bit [UINT_PTR]. *)
Definition INVALID_SOCKET : Z := 18446744073709551615.
(** WinSock2.h. *)
Definition WSAEWOULDBLOCK : Z := 10035.
(** stdlib.h. *)
Definition EXIT_FAILURE : Z := 1.
Definition NULL : Z := 0.
(** libev's ev.h: [EV_READ = 0x01], [EV_ERROR = (int)0x80000000]. *)
Definition EV_READ : Z := 1.
Definition EV_ERROR : Z := -2147483648.
(** [#define SERVER_PORT 5555] *)
Definition SERVER_PORT : Z := 5555.

(** The line feed that ends every diagnostic line. *)
Definition nl : string := String (Ascii.ascii_of_nat 10%nat) EmptyString.

(** ** Data *)

(** The fields of libev's [ev_io] that [ev_io_init] sets from its
    arguments. Whether the watcher is started is a property of the loop,
    see [loop_clients] below. *)
Record ev_io := { fd : Z; events : Z }.

(** [struct client_t]: the watcher and the winsock SOCKET. The tail queue
    links are the position of the object in [client_tailq_head]. *)
Record client_t := { io : ev_io; socketd : Z }.

(** [struct server_t]. *)
Record server_t := { s_io : ev_io; s_socketd : Z }.

(** What the system knows about an open socket. *)
Record socket_state := {
  nonblocking : bool;
  reuseaddr : bool;
  bound_port : option Z;
  backlog : option Z
}.

(** What the process does that an observer can see. A [Send] keeps the
    value that [send] returned, although the program drops it. *)
Inductive event :=
  | Send (s : Z) (data : list byte) (flags : Z) (rv : Z)
  | Stderr (text : string)
  | Stdout (text : string).

(** The state of the process between two statements.
    - [client_tailq_head]: the tail queue, as the list of the addresses of
      its elements from first to last;
    - [heap]: the [client_t] objects that are allocated, by address;
    - [w_accept]: the [server_t] local of [main];
    - [loop_accept], [loop_clients]: the watchers that are started on the
      default loop;
    - [sockets]: the open sockets of the process;
    - [out]: the events so far, oldest first. *)
Record world := {
  client_tailq_head : list Z;
  heap : gmap Z client_t;
  w_accept : server_t;
  loop_accept : bool;
  loop_clients : gset Z;
  sockets : gmap Z socket_state;
  out : list event
}.

Definition set_tailq (f : list Z → list Z) (w : world) : world :=
  {| client_tailq_head := f (client_tailq_head w); heap := heap w;
     w_accept := w_accept w; loop_accept := loop_accept w;
     loop_clients := loop_clients w; sockets := sockets w; out := out w |}.

Definition set_heap (f : gmap Z client_t → gmap Z client_t) (w : world) : world :=
  {| client_tailq_head := client_tailq_head w; heap := f (heap w);
     w_accept := w_accept w; loop_accept := loop_accept w;
     loop_clients := loop_clients w; sockets := sockets w; out := out w |}.

Definition set_w_accept (f : server_t → server_t) (w : world) : world :=
  {| client_tailq_head := client_tailq_head w; heap := heap w;
     w_accept := f (w_accept w); loop_accept := loop_accept w;
     loop_clients := loop_clients w; sockets := sockets w; out := out w |}.

Definition set_loop_accept (b : bool) (w : world) : world :=
  {| client_tailq_head := client_tailq_head w; heap := heap w;
     w_accept := w_accept w; loop_accept := b;
     loop_clients := loop_clients w; sockets := sockets w; out := out w |}.

Definition set_loop_clients (f : gset Z → gset Z) (w : world) : world :=
  {| client_tailq_head := client_tailq_head w; heap := heap w;
     w_accept := w_accept w; loop_accept := loop_accept w;
     loop_clients := f (loop_clients w); sockets := sockets w; out := out w |}.

Definition set_sockets (f : gmap Z socket_state → gmap Z socket_state)
    (w : world) : world :=
  {| client_tailq_head := client_tailq_head w; heap := heap w;
     w_accept := w_accept w; loop_accept := loop_accept w;
     loop_clients := loop_clients w; sockets := f (sockets w); out := out w |}.

Definition emit (e : event) (w : world) : world :=
  {| client_tailq_head := client_tailq_head w; heap := heap w;
     w_accept := w_accept w; loop_accept := loop_accept w;
     loop_clients := loop_clients w; sockets := sockets w;
     out := out w ++ [e] |}.

(** The process image before [main] runs: statics are zero. *)
Definition zero_io : ev_io := {| fd := 0; events := 0 |}.
Definition boot : world :=
  {| client_tailq_head := []; heap := ∅;
     w_accept := {| s_io := zero_io; s_socketd := 0 |};
     loop_accept := false; loop_clients := ∅; sockets := ∅; out := [] |}.

(** ** Library calls *)

(** Modelled from the spec: the macros of the local [queue.h], which is
    not among the sources. The registry is "an ordered collection of
    currently connected peer handles; supports insertion, removal, and
    full traversal". An element carries one pair of links, so it is in the
    queue at most once and unlinking it drops every occurrence of its
    address. *)
Definition TAILQ_INIT (w : world) : world := set_tailq (λ _, []) w.
Definition TAILQ_INSERT_TAIL (elm : Z) (w : world) : world :=
  set_tailq (λ q, q ++ [elm]) w.
Definition TAILQ_REMOVE (elm : Z) (w : world) : world :=
  set_tailq (filter (λ x, x ≠ elm)) w.

(** Modelled from the spec: libev's [ev_io_init], [ev_io_start] and
    [ev_io_stop] ([libev.h] is not among the sources): starting arms the
    watcher for readiness notifications, stopping deregisters it; both do
    nothing when the watcher is already in that state. *)
Definition ev_io_init (fd_ events_ : Z) : ev_io :=
  {| fd := fd_; events := events_ |}.
Definition ev_io_start (client : Z) (w : world) : world :=
  set_loop_clients (λ s, {[client]} ∪ s) w.
Definition ev_io_stop (client : Z) (w : world) : world :=
  set_loop_clients (λ s, s ∖ {[client]}) w.

(** Winsock and the C library. *)
Definition closesocket (s : Z) (w : world) : world := set_sockets (delete s) w.
Definition free (p : Z) (w : world) : world := set_heap (delete p) w.

(** [send]: the answer of the system may depend on everything that has
    happened so far; the call is recorded together with it. *)
Definition send_oracle := list event → Z → list byte → Z.
Definition send (send_rv : send_oracle) (s : Z) (data : list byte) (flags : Z)
    (w : world) : Z * world :=
  let rv := send_rv (out w) s data in
  (rv, emit (Send s data flags rv) w).

(** ** [read_cb] *)

(** One answer of [recv]: the value returned, the bytes it left at the
    start of [buffer], and what [WSAGetLastError()] returns after it. *)
Record recv_result := {
  recv_rv : Z;
  recv_buf : list byte;
  recv_wsa_error : Z
}.

(** [TAILQ_FOREACH (client, &client_tailq_head, entries)] with the body of
    [read_cb]: the body does not touch the queue, so the traversal is over
    the elements [q] that were linked when it began. [None] is the
    dereference of a pointer to no allocated object. *)
Fixpoint foreach_send (send_rv : send_oracle) (this_client : Z)
    (buffer : list byte) (read : Z) (q : list Z) (w : world) : option world :=
  match q with
  | [] => Some w
  | client :: q' =>
      if decide (client ≠ this_client) then
        c ← heap w !! client;
        foreach_send send_rv this_client buffer read q'
          (send send_rv (socketd c) (take (Z.to_nat read) buffer) 0 w).2
      else foreach_send send_rv this_client buffer read q' w
  end.

(** The [for (;;)] of [read_cb]. Each iteration consumes one answer of
    [recv]; [None] also stands for an invocation that has not returned
    when the answers run out. *)
Fixpoint read_loop (send_rv : send_oracle) (this_client : Z)
    (answers : list recv_result) (w : world) : option world :=
  match answers with
  | [] => None
  | r :: answers' =>
      c ← heap w !! this_client;
      let buffer := recv_buf r in
      let read := recv_rv r in
      if decide (read < 0 ∧ WSAEWOULDBLOCK = recv_wsa_error r) then
        (* Done. *)
        Some w
      else if decide (read ≤ 0) then
        let w := ev_io_stop this_client w in
        (* Remove the client from the tailq. *)
        let w := TAILQ_REMOVE this_client w in
        c ← heap w !! this_client;
        let w := closesocket (socketd c) w in
        let w := free this_client w in
        Some w
      else
        w ← foreach_send send_rv this_client buffer read (client_tailq_head w) w;
        read_loop send_rv this_client answers' w
  end.

(** [read_cb (loop, watcher, revents)]: [watcher] is the address of the
    client, [revents] is not looked at. *)
Definition read_cb (send_rv : send_oracle) (watcher : Z) (revents : Z)
    (answers : list recv_result) (w : world) : option world :=
  let this_client := watcher in
  read_loop send_rv this_client answers w.

(** ** Diagnostics, [accept_cb] and [main] *)

Section Platform.

(** The tables of the platform that turn a code into text:
    [FormatMessageA] with [FORMAT_MESSAGE_FROM_SYSTEM] for a winsock error,
    [strerror] for [errno] (as [perror] uses it), and [inet_ntoa] for an
    address. The program is the same for every choice of them. *)
Variable FormatMessageA : Z → string.
Variable strerror : Z → string.
Variable inet_ntoa : Z → string.

(** [socket_perror]: [fprintf (stderr, "%s: %s\n", message, buffer)] with
    the system's text for [WSAGetLastError()] in [buffer]. *)
Definition socket_perror (message : string) (wsa_error : Z) (w : world) : world :=
  emit (Stderr (message +:+ ": " +:+ FormatMessageA wsa_error +:+ nl)) w.

(** [perror] of the C library. *)
Definition perror (message : string) (errno : Z) (w : world) : world :=
  emit (Stderr (message +:+ ": " +:+ strerror errno +:+ nl)) w.

(** What the system answers during one run of [accept_cb]. *)
Record accept_env := {
  acc_socket : Z;            (* the value [accept] returns *)
  acc_addr : Z;              (* [client_addr.sin_addr] as [accept] fills it *)
  acc_state : socket_state;  (* the new socket as the system creates it *)
  acc_wsa_error : Z;         (* [WSAGetLastError()] after [accept] *)
  acc_calloc : Z;            (* the value [calloc] returns *)
  acc_errno : Z;             (* [errno] when [perror] reads it *)
  acc_osfhandle : Z          (* the value [_open_osfhandle] returns *)
}.

(** [accept (s, &client_addr, &client_len)]: a connection that is accepted
    is a new open socket of the process, in the state [acc_state env] that
    the system gives it. Winsock gives it the properties of the listening
    socket [s]; that rule is [accept_inherits] below. *)
Definition accept (s : Z) (env : accept_env) (w : world) : Z * world :=
  if decide (acc_socket env = INVALID_SOCKET) then (INVALID_SOCKET, w)
  else (acc_socket env, set_sockets (<[acc_socket env := acc_state env]>) w).

(** [calloc] for one [client_t]: a zeroed object, or [NULL]. *)
Definition calloc_client (env : accept_env) (w : world) : Z * world :=
  if decide (acc_calloc env = NULL) then (NULL, w)
  else (acc_calloc env,
        set_heap (<[acc_calloc env := {| io := zero_io; socketd := 0 |}]>) w).

Definition store_socketd (s : Z) (c : client_t) : client_t :=
  {| io := io c; socketd := s |}.
Definition store_io (i : ev_io) (c : client_t) : client_t :=
  {| io := i; socketd := socketd c |}.

(** [accept_cb (loop, watcher_, revents)]; [watcher_] is [&w_accept.io],
    the one watcher that is initialised with this callback. *)
Definition accept_cb (revents : Z) (env : accept_env) (w : world) : world :=
  let w_ := w_accept w in
  if decide (Z.land EV_ERROR revents ≠ 0) then
    perror "Got invalid event" (acc_errno env) w
  else
    (* Accept client request *)
    let a := accept (s_socketd w_) env w in
    let client_socket := a.1 in
    let w := a.2 in
    if decide (INVALID_SOCKET = client_socket) then
      socket_perror "Accept error" (acc_wsa_error env) w
    else
      (* We've accepted a new client, create a client object. *)
      let a := calloc_client env w in
      let client := a.1 in
      let w := a.2 in
      if decide (client = NULL) then
        perror "malloc failed" (acc_errno env) w
      else
        let w := set_heap (alter (store_socketd client_socket) client) w in
        (* Initialize and start watcher to read client requests *)
        let w :=
          set_heap (alter (store_io (ev_io_init (acc_osfhandle env) EV_READ))
                      client) w in
        (* Add the new client to the tailq. *)
        let w := TAILQ_INSERT_TAIL client w in
        let w := ev_io_start client w in
        emit (Stdout ("Accepted connection from "
                      +:+ inet_ntoa (acc_addr env) +:+ nl)) w.

(** What the system answers during the start-up of [main]. At most one
    call fails before [main] returns, so one error code is enough. *)
Record startup_env := {
  st_socket : Z;
  st_ioctlsocket : Z;
  st_setsockopt : Z;
  st_bind : Z;
  st_listen : Z;
  st_wsa_error : Z;
  st_osfhandle : Z
}.

(** How [main] ends: it returns [status], or it enters
    [for (;;) ev_loop (loop, 0)] and never returns. *)
Inductive outcome :=
  | Exit (status : Z) (w : world)
  | Dispatch (w : world).

Definition new_socket : socket_state :=
  {| nonblocking := false; reuseaddr := false;
     bound_port := None; backlog := None |}.
Definition set_nonblocking (b : bool) (s : socket_state) : socket_state :=
  {| nonblocking := b; reuseaddr := reuseaddr s;
     bound_port := bound_port s; backlog := backlog s |}.
Definition set_reuseaddr (b : bool) (s : socket_state) : socket_state :=
  {| nonblocking := nonblocking s; reuseaddr := b;
     bound_port := bound_port s; backlog := backlog s |}.
Definition set_bound_port (p : Z) (s : socket_state) : socket_state :=
  {| nonblocking := nonblocking s; reuseaddr := reuseaddr s;
     bound_port := Some p; backlog := backlog s |}.
Definition set_backlog (n : Z) (s : socket_state) : socket_state :=
  {| nonblocking := nonblocking s; reuseaddr := reuseaddr s;
     bound_port := bound_port s; backlog := Some n |}.

Definition main (env : startup_env) : outcome :=
  (* Initialize the tailq. *)
  let w := TAILQ_INIT boot in
  let listen_socket := st_socket env in
  if decide (INVALID_SOCKET = listen_socket) then
    Exit EXIT_FAILURE (socket_perror "socket" (st_wsa_error env) w)
  else
    let w := set_sockets (<[listen_socket := new_socket]>) w in
    if decide (0 ≠ st_ioctlsocket env) then
      Exit EXIT_FAILURE (socket_perror "ioctlsocket" (st_wsa_error env) w)
    else
      let w := set_sockets (alter (set_nonblocking true) listen_socket) w in
      if decide (0 ≠ st_setsockopt env) then
        Exit EXIT_FAILURE (socket_perror "setsockopt" (st_wsa_error env) w)
      else
        let w := set_sockets (alter (set_reuseaddr true) listen_socket) w in
        (* Bind socket to address *)
        if decide (0 ≠ st_bind env) then
          Exit EXIT_FAILURE (socket_perror "bind" (st_wsa_error env) w)
        else
          let w :=
            set_sockets (alter (set_bound_port SERVER_PORT) listen_socket) w in
          (* Start listening on the socket *)
          if decide (0 ≠ st_listen env) then
            Exit EXIT_FAILURE (socket_perror "listen" (st_wsa_error env) w)
          else
            let w := set_sockets (alter (set_backlog 5) listen_socket) w in
            let listen_fd := st_osfhandle env in
            let w :=
              set_w_accept (λ s, {| s_io := s_io s;
                                    s_socketd := listen_socket |}) w in
            let w :=
              set_w_accept (λ s, {| s_io := ev_io_init listen_fd EV_READ;
                                    s_socketd := s_socketd s |}) w in
            let w := set_loop_accept true w in
            (* Start infinite loop *)
            Dispatch w.

(** ** Vocabulary for the accept handler and the start-up *)

(** The notice of [accept_cb] for a connection from [addr]. *)
Definition accepted_notice (addr : Z) : event :=
  Stdout ("Accepted connection from " +:+ inet_ntoa addr +:+ nl).

(** The client object as [accept_cb] fills it in. *)
Definition new_client (env : accept_env) : client_t :=
  {| io := ev_io_init (acc_osfhandle env) EV_READ;
     socketd := acc_socket env |}.

(** The text that [socket_perror] prints for [message]. *)
Definition socket_error_line (message : string) (wsa_error : Z) : event :=
  Stderr (message +:+ ": " +:+ FormatMessageA wsa_error +:+ nl).

(** C4 at one invocation: a client that the handler links into the queue
    has its socket in non-blocking mode. *)
Definition registers_nonblocking (revents : Z) (env : accept_env) (w : world)
    : Prop :=
  ∀ p c,
    p ∉ client_tailq_head w →
    p ∈ client_tailq_head (accept_cb revents env w) →
    heap (accept_cb revents env w) !! p = Some c →
    nonblocking <$> sockets (accept_cb revents env w) !! socketd c = Some true.

(** C5 as the claim has it, at one invocation: when [accept] succeeds, one
    client with the accepted socket is linked at the tail, its watcher is
    started and the notice is printed. *)
Definition accept_adds_peer (revents : Z) (env : accept_env) (w : world)
    : Prop :=
  Z.land EV_ERROR revents = 0 → acc_socket env ≠ INVALID_SOCKET →
  ∃ p c,
    client_tailq_head (accept_cb revents env w) = client_tailq_head w ++ [p]
    ∧ heap (accept_cb revents env w) !! p = Some c
    ∧ socketd c = acc_socket env
    ∧ p ∈ loop_clients (accept_cb revents env w)
    ∧ out (accept_cb revents env w)
      = out w ++ [accepted_notice (acc_addr env)].

(** ** The dispatch loop *)

(** One callback invocation by [ev_loop], with the answers of the system
    during it. *)
Inductive callback :=
  | AcceptReady (revents : Z) (env : accept_env)
  | ReadReady (watcher : Z) (revents : Z) (answers : list recv_result)
      (send_rv : send_oracle).

Definition dispatch (cb : callback) (w : world) : option world :=
  match cb with
  | AcceptReady revents env => Some (accept_cb revents env w)
  | ReadReady watcher revents answers send_rv =>
      read_cb send_rv watcher revents answers w
  end.

(** What libev and the system guarantee about an invocation: a callback
    runs for a watcher that is started; [accept] returns a socket that was
    not open; [calloc] returns a block that was not allocated. *)
Definition env_ok (cb : callback) (w : world) : Prop :=
  match cb with
  | AcceptReady revents env =>
      loop_accept w = true
      ∧ sockets w !! acc_socket env = None
      ∧ heap w !! acc_calloc env = None
  | ReadReady watcher _ _ _ => watcher ∈ loop_clients w
  end.

(** The states between two callbacks. *)
Inductive reachable : world → Prop :=
  | reachable_main env w :
      main env = Dispatch w → reachable w
  | reachable_callback w cb w' :
      reachable w → env_ok cb w → dispatch cb w = Some w' → reachable w'.

End Platform.

(** ** Vocabulary of the statements *)

(** [w] with the events [tr] added at the end of its output. *)
Definition append_out (tr : list event) (w : world) : world :=
  {| client_tailq_head := client_tailq_head w; heap := heap w;
     w_accept := w_accept w; loop_accept := loop_accept w;
     loop_clients := loop_clients w; sockets := sockets w;
     out := out w ++ tr |}.

(** The [send] calls of a trace, in order: socket and bytes. *)
Definition attempts (tr : list event) : list (Z * list byte) :=
  omap (λ e, match e with Send s d _ _ => Some (s, d) | _ => None end) tr.

(** What was handed to [send] for socket [s], call by call. *)
Definition delivered (s : Z) (a : list (Z * list byte)) : list (list byte) :=
  (filter (λ x, x.1 = s) a).*2.

(** The bytes that a [recv] answer made available: the first [recv_rv]
    bytes of the buffer. *)
Definition received (r : recv_result) : list byte :=
  take (Z.to_nat (recv_rv r)) (recv_buf r).

(** [this_client->socketd] for the object at [p]. *)
Definition socket_of (w : world) (p : Z) : Z :=
  from_option socketd 0 (heap w !! p).

(** The [send] calls of one traversal of the queue [q] for [data] on
    behalf of [p]. *)
Definition fan_out (w : world) (p : Z) (q : list Z) (data : list byte)
    : list (Z * list byte) :=
  map (λ c, (socket_of w c, data)) (filter (λ c, c ≠ p) q).

(** The state between callbacks is consistent when the queue, the heap,
    the loop and the socket table agree about who is connected. *)
Record consistent (w : world) : Prop := {
  cons_nodup : NoDup (client_tailq_head w);
  cons_alloc : ∀ p, p ∈ client_tailq_head w ↔ is_Some (heap w !! p);
  cons_watch : ∀ p, p ∈ loop_clients w ↔ p ∈ client_tailq_head w;
  cons_open : ∀ p c, heap w !! p = Some c → is_Some (sockets w !! socketd c);
  cons_inj : ∀ p q c d,
    heap w !! p = Some c → heap w !! q = Some d →
    socketd c = socketd d → p = q
}.

(** Every element of the queue is an allocated object. *)
Definition queue_allocated (w : world) : Prop :=
  ∀ c, c ∈ client_tailq_head w → is_Some (heap w !! c).


(** An answer of [recv] that carries data, and the two kinds that end the
    loop. *)
Definition is_data (r : recv_result) : Prop := 0 < recv_rv r.
Definition is_would_block (r : recv_result) : Prop :=
  recv_rv r < 0 ∧ recv_wsa_error r = WSAEWOULDBLOCK.
Definition is_closed (r : recv_result) : Prop :=
  recv_rv r = 0 ∨ (recv_rv r < 0 ∧ recv_wsa_error r ≠ WSAEWOULDBLOCK).

(** The tear-down of [read_cb] for the client at [p] with socket [s]. *)
Definition torn_down (p s : Z) (w : world) : world :=
  free p (closesocket s (TAILQ_REMOVE p (ev_io_stop p w))).

(** [w] with the values that [send] returned forgotten. *)
Definition forget_rv (e : event) : event :=
  match e with Send s d f _ => Send s d f 0 | _ => e end.
Definition erase (w : world) : world :=
  {| client_tailq_head := client_tailq_head w; heap := heap w;
     w_accept := w_accept w; loop_accept := loop_accept w;
     loop_clients := loop_clients w; sockets := sockets w;
     out := forget_rv <$> out w |}.

(** An event that is a call of [send] with flags 0, the only kind that
    [read_cb] makes. *)
Definition is_send (e : event) : Prop := ∃ s data rv, e = Send s data 0 rv.

(** The listening socket once [main] has configured it. *)
Definition listener_state : socket_state :=
  {| nonblocking := true; reuseaddr := true;
     bound_port := Some SERVER_PORT; backlog := Some 5 |}.

(** The calls of the start-up that [main] checks, in program order, each
    with whether the system made it fail. *)
Definition startup_calls (env : startup_env) : list (string * bool) :=
  [("socket", bool_decide (st_socket env = INVALID_SOCKET));
   ("ioctlsocket", bool_decide (st_ioctlsocket env ≠ 0));
   ("setsockopt", bool_decide (st_setsockopt env ≠ 0));
   ("bind", bool_decide (st_bind env ≠ 0));
   ("listen", bool_decide (st_listen env ≠ 0))].

(** The first of them that fails, if any. *)
Definition first_failure (env : startup_env) : option string :=
  fst <$> head (filter (λ c, c.2 = true) (startup_calls env)).

(** Two answers of [recv] that differ at most in the error code left
    behind by a call that did not fail. *)
Definition same_answer (r r' : recv_result) : Prop :=
  recv_rv r = recv_rv r' ∧ recv_buf r = recv_buf r'
  ∧ (recv_rv r < 0 → recv_wsa_error r = recv_wsa_error r').

(** The listener as [main] leaves it: its watcher started for read
    events, its socket open and configured, and no client on that
    socket. *)
Definition listener_ok (w : world) : Prop :=
  loop_accept w = true
  ∧ sockets w !! s_socketd (w_accept w) = Some listener_state
  ∧ events (s_io (w_accept w)) = EV_READ
  ∧ ∀ q c, heap w !! q = Some c → socketd c ≠ s_socketd (w_accept w).

(** The rule of Winsock for [accept (s, ...)]: the socket that is returned
    has the blocking mode of the listening socket [s]. *)
Definition accept_inherits (s : Z) (env : accept_env) (w : world) : Prop :=
  nonblocking <$> sockets w !! s = Some (nonblocking (acc_state env)).

(** A socket that is open and that no client object holds. *)
Definition unowned (w : world) (s : Z) (st : socket_state) : Prop :=
  sockets w !! s = Some st ∧ ∀ q c, heap w !! q = Some c → socketd c ≠ s.

Section Runs.

Variable FormatMessageA : Z → string.
Variable strerror : Z → string.
Variable inet_ntoa : Z → string.

(** The states that the loop gets to from [w] by callbacks. *)
Inductive follows (w : world) : world → Prop :=
  | follows_here : follows w w
  | follows_callback w1 cb w2 :
      follows w w1 → env_ok cb w1 →
      dispatch FormatMessageA strerror inet_ntoa cb w1 = Some w2 →
      follows w w2.

End Runs.

(** ** A run: three clients connect, one talks, one leaves *)

Module Scenario.

(** A platform whose tables know one text per kind of code. *)
Definition wsa_text (e : Z) : string := "winsock error".
Definition errno_text (e : Z) : string := "errno".
Definition dotted (a : Z) : string := "127.0.0.1".

Definition startup_ok : startup_env :=
  {| st_socket := 100; st_ioctlsocket := 0; st_setsockopt := 0;
     st_bind := 0; st_listen := 0; st_wsa_error := 0; st_osfhandle := 3 |}.

(** [bind] fails with [WSAEADDRINUSE]. *)
Definition startup_port_taken : startup_env :=
  {| st_socket := 100; st_ioctlsocket := 0; st_setsockopt := 0;
     st_bind := -1; st_listen := 0; st_wsa_error := 10048;
     st_osfhandle := 3 |}.

(** A connection socket as [accept] creates it. *)
Definition connection (nb : bool) : socket_state :=
  {| nonblocking := nb; reuseaddr := true;
     bound_port := Some SERVER_PORT; backlog := None |}.

(** [accept] returns socket [s] in non-blocking mode, [calloc] returns
    the address [p]. *)
Definition conn (s p : Z) : accept_env :=
  {| acc_socket := s; acc_addr := 16777343; acc_state := connection true;
     acc_wsa_error := 0; acc_calloc := p; acc_errno := 0;
     acc_osfhandle := s - 97 |}.

(** [accept] succeeds and [calloc] has no memory left. *)
Definition conn_no_memory : accept_env :=
  {| acc_socket := 101; acc_addr := 16777343; acc_state := connection true;
     acc_wsa_error := 0; acc_calloc := NULL; acc_errno := 12;
     acc_osfhandle := 4 |}.

(** [accept] fails with [WSAEMFILE]. *)
Definition conn_refused : accept_env :=
  {| acc_socket := INVALID_SOCKET; acc_addr := 0;
     acc_state := connection true; acc_wsa_error := 10024;
     acc_calloc := NULL; acc_errno := 0; acc_osfhandle := 0 |}.

Definition listening : world :=
  match main wsa_text startup_ok with Dispatch w => w | Exit _ w => w end.
Definition accept_one (env : accept_env) (w : world) : world :=
  accept_cb wsa_text errno_text dotted EV_READ env w.

(** A at 1000 on socket 101, B at 2000 on 102, C at 3000 on 103. *)
Definition with_a : world := accept_one (conn 101 1000) listening.
Definition with_ab : world := accept_one (conn 102 2000) with_a.
Definition with_abc : world := accept_one (conn 103 3000) with_ab.

(** [send] takes everything, or fails every time. *)
Definition send_all : send_oracle := λ _ _ data, Z.of_nat (length data).
Definition send_fails : send_oracle := λ _ _ _, -1.

Definition hi : recv_result :=
  {| recv_rv := 2; recv_buf := ["h"%byte; "i"%byte]; recv_wsa_error := 0 |}.
Definition no_more : recv_result :=
  {| recv_rv := -1; recv_buf := []; recv_wsa_error := WSAEWOULDBLOCK |}.
Definition hung_up : recv_result :=
  {| recv_rv := 0; recv_buf := []; recv_wsa_error := 0 |}.
(** [WSAECONNRESET]. *)
Definition reset : recv_result :=
  {| recv_rv := -1; recv_buf := []; recv_wsa_error := 10054 |}.

(** The state once B has hung up. *)
Definition after_b_left : world :=
  default with_abc (read_cb send_all 2000 EV_READ [hung_up] with_abc).

(** The state once B has said "hi" and hung up in one invocation. *)
Definition after_b_said_hi_and_left : world :=
  default with_abc (read_cb send_all 2000 EV_READ [hi; hung_up] with_abc).

(** [recv] returns 0 while the last error still reads [WSAEWOULDBLOCK]. *)
Definition hung_up_stale : recv_result :=
  {| recv_rv := 0; recv_buf := []; recv_wsa_error := WSAEWOULDBLOCK |}.

(** libev reports an error on the listening descriptor. *)
Definition error_event : Z := Z.lor EV_ERROR EV_READ.

(** [socket] and [ioctlsocket] succeed, every later call would fail. *)
Definition startup_no_reuse : startup_env :=
  {| st_socket := 100; st_ioctlsocket := 0; st_setsockopt := -1;
     st_bind := -1; st_listen := -1; st_wsa_error := 10042;
     st_osfhandle := 3 |}.

(** A connection on socket 101 is accepted with no memory for its
    object; then D connects at 4000 on socket 104, talks and hangs up. *)
Definition out_of_memory : world := accept_one conn_no_memory listening.
Definition with_d : world := accept_one (conn 104 4000) out_of_memory.
Definition after_d_left : world :=
  default with_d (read_cb send_all 4000 EV_READ [hi; hung_up] with_d).

Definition client_b : client_t :=
  {| io := {| fd := 5; events := EV_READ |}; socketd := 102 |}.
Definition client_a : client_t :=
  {| io := {| fd := 4; events := EV_READ |}; socketd := 101 |}.

End Scenario.

(** ** Lemmas on the output *)

Lemma append_out_nil w : append_out [] w = w.
Proof. destruct w; unfold append_out; simpl. by rewrite app_nil_r. Qed.

Lemma append_out_app t1 t2 w :
  append_out t2 (append_out t1 w) = append_out (t1 ++ t2) w.
Proof. unfold append_out; simpl. by rewrite app_assoc. Qed.

Lemma emit_append e w : emit e w = append_out [e] w.
Proof. reflexivity. Qed.

Lemma attempts_app t1 t2 : attempts (t1 ++ t2) = attempts t1 ++ attempts t2.
Proof. apply omap_app. Qed.

Lemma socket_of_append tr w p : socket_of (append_out tr w) p = socket_of w p.
Proof. reflexivity. Qed.

Lemma fan_out_append tr w p q data :
  fan_out (append_out tr w) p q data = fan_out w p q data.
Proof. reflexivity. Qed.

Lemma consistent_append tr w : consistent w → consistent (append_out tr w).
Proof. intros [H1 H2 H3 H4 H5]. by split. Qed.

(** A traversal only adds [send] events: one per element other than
    [this_client], in queue order, each with the first [read] bytes of the
    buffer. *)
Lemma foreach_send_spec send_rv this_client buffer read q w :
  (∀ c, c ∈ q → is_Some (heap w !! c)) →
  ∃ tr,
    foreach_send send_rv this_client buffer read q w = Some (append_out tr w)
    ∧ attempts tr
      = fan_out w this_client q (take (Z.to_nat read) buffer).
Proof.
  revert w. induction q as [|client q IH]; intros w Halloc.
  - exists []. by rewrite append_out_nil.
  - cbn [foreach_send]. unfold fan_out. rewrite filter_cons.
    destruct (decide (client ≠ this_client)) as [Hne|Heq].
    + destruct (Halloc client) as [c Hc]; [left|].
      set (data := take (Z.to_nat read) buffer).
      set (e := Send (socketd c) data 0 (send_rv (out w) (socketd c) data)).
      destruct (IH (append_out [e] w)) as (tr & Hrun & Hatt).
      { intros c' Hc'. apply Halloc. by right. }
      exists (e :: tr). split.
      * rewrite Hc. cbn [mbind option_bind send snd].
        rewrite emit_append. fold data e.
        by rewrite Hrun, append_out_app.
      * change (e :: tr) with ([e] ++ tr).
        rewrite attempts_app, Hatt. cbn.
        unfold socket_of at 1. by rewrite Hc.
    + destruct (IH w) as (tr & Hrun & Hatt).
      { intros c' Hc'. apply Halloc. by right. }
      exists tr. split; [exact Hrun | exact Hatt].
Qed.

(** ** Lemmas on the read loop *)

Lemma consistent_queue_allocated w : consistent w → queue_allocated w.
Proof. intros Hc c Hin. by apply (cons_alloc w Hc). Qed.

(** The iterations that receive data: each one is a traversal, and the
    loop goes on with the answers that are left. *)
Lemma read_loop_data send_rv p chunks w :
  queue_allocated w → is_Some (heap w !! p) → Forall is_data chunks →
  ∃ tr,
    (∀ rest, read_loop send_rv p (chunks ++ rest) w
             = read_loop send_rv p rest (append_out tr w))
    ∧ attempts tr
      = flat_map (λ r, fan_out w p (client_tailq_head w) (received r)) chunks.
Proof.
  intros Hq [c Hp] Hdata. revert w Hq Hp.
  induction Hdata as [|r chunks Hr _ IH]; intros w Hq Hp.
  - exists []. split; [|done]. intros rest. by rewrite append_out_nil.
  - destruct (foreach_send_spec send_rv p (recv_buf r) (recv_rv r)
                (client_tailq_head w) w Hq) as (t1 & Hrun & Hatt).
    destruct (IH (append_out t1 w) Hq Hp) as (t2 & Hrest & Hatt2).
    exists (t1 ++ t2). split.
    + intros rest. cbn [app read_loop]. rewrite Hp. cbn [mbind option_bind].
      unfold is_data in Hr.
      destruct (decide (recv_rv r < 0 ∧ WSAEWOULDBLOCK = recv_wsa_error r))
        as [[? _]|_]; [lia|].
      destruct (decide (recv_rv r ≤ 0)); [lia|].
      rewrite Hrun. cbn [mbind option_bind].
      by rewrite Hrest, append_out_app.
    + rewrite attempts_app, Hatt, Hatt2. reflexivity.
Qed.

Lemma read_loop_would_block send_rv p r rest w :
  is_Some (heap w !! p) → is_would_block r →
  read_loop send_rv p (r :: rest) w = Some w.
Proof.
  intros [c Hp] [Hneg Herr]. cbn [read_loop]. rewrite Hp.
  cbn [mbind option_bind].
  destruct (decide (recv_rv r < 0 ∧ WSAEWOULDBLOCK = recv_wsa_error r))
    as [_|Hn]; [done|].
  exfalso. apply Hn. by split.
Qed.

Lemma read_loop_closed send_rv p c r rest w :
  heap w !! p = Some c → is_closed r →
  read_loop send_rv p (r :: rest) w = Some (torn_down p (socketd c) w).
Proof.
  intros Hp Hcl. cbn [read_loop]. rewrite Hp. cbn [mbind option_bind].
  destruct (decide (recv_rv r < 0 ∧ WSAEWOULDBLOCK = recv_wsa_error r))
    as [[Hneg Herr]|_].
  { destruct Hcl as [?|[_ Hne]]; [lia | congruence]. }
  destruct (decide (recv_rv r ≤ 0)) as [_|Hpos].
  - cbn [heap TAILQ_REMOVE ev_io_stop set_tailq set_loop_clients].
    by rewrite Hp.
  - destruct Hcl as [?|[? _]]; lia.
Qed.

(** Every answer that does not carry data ends the loop one way or the
    other. *)
Lemma not_data_cases r : ¬ is_data r → is_would_block r ∨ is_closed r.
Proof.
  unfold is_data, is_would_block, is_closed. intros Hn.
  destruct (decide (recv_rv r = 0)); [by right; left|].
  destruct (decide (recv_wsa_error r = WSAEWOULDBLOCK)).
  - left. split; [lia|done].
  - right. right. split; [lia|done].
Qed.

(** ** Lemmas on who gets what *)

Lemma delivered_app s a b : delivered s (a ++ b) = delivered s a ++ delivered s b.
Proof. unfold delivered. by rewrite filter_app, fmap_app. Qed.

Lemma delivered_flat_map {A} s (g : A → list (Z * list byte)) (l : list A) :
  delivered s (flat_map g l) = flat_map (λ x, delivered s (g x)) l.
Proof.
  induction l as [|x l IH]; [done|].
  cbn [flat_map]. by rewrite delivered_app, IH.
Qed.

Lemma delivered_map_absent (f : Z → Z) (x : Z) (data : list byte) (l : list Z) :
  (∀ y, y ∈ l → f y ≠ f x) →
  delivered (f x) (map (λ y, (f y, data)) l) = [].
Proof.
  induction l as [|y l IH]; intros Hne; [done|].
  unfold delivered. cbn [map]. rewrite filter_cons. cbn [fst].
  destruct (decide (f y = f x)) as [Heq|_].
  - exfalso. apply (Hne y); [left | done].
  - apply IH. intros z Hz. apply Hne. by right.
Qed.

Lemma delivered_map_present (f : Z → Z) (x : Z) (data : list byte) (l : list Z) :
  NoDup l → x ∈ l → (∀ y, y ∈ l → f y = f x → y = x) →
  delivered (f x) (map (λ y, (f y, data)) l) = [data].
Proof.
  induction l as [|y l IH]; intros Hnd Hin Hinj.
  - by apply elem_of_nil in Hin.
  - apply NoDup_cons in Hnd as [Hy Hnd].
    unfold delivered. cbn [map]. rewrite filter_cons. cbn [fst].
    destruct (decide (f y = f x)) as [Heq|Hne].
    + assert (y = x) as -> by (apply Hinj; [left | done]).
      cbn [fmap list_fmap snd]. f_equal.
      apply (delivered_map_absent f x data l).
      intros z Hz Hfz. apply Hy.
      assert (z = x) as -> by (apply Hinj; [by right | done]). done.
    + apply elem_of_cons in Hin as [->|Hin]; [done|].
      apply IH; [done | done |]. intros z Hz. apply Hinj. by right.
Qed.

Lemma flat_map_singleton {A B} (f : A → B) (l : list A) :
  flat_map (λ x, [f x]) l = map f l.
Proof. induction l as [|x l IH]; [done|]. cbn. by rewrite IH. Qed.

Lemma flat_map_nil {A B} (l : list A) : flat_map (λ _, @nil B) l = [].
Proof. by induction l. Qed.

(** One run of [read_cb] on a connected client: the data iterations add
    the trace [tr], and the last answer decides between leaving and
    tearing down. The answers after it are never asked for. *)
Lemma read_cb_run send_rv w p c revents chunks :
  queue_allocated w → heap w !! p = Some c → Forall is_data chunks →
  ∃ tr,
    attempts tr
    = flat_map (λ r, fan_out w p (client_tailq_head w) (received r)) chunks
    ∧ (∀ last rest, is_would_block last →
         read_cb send_rv p revents (chunks ++ last :: rest) w
         = Some (append_out tr w))
    ∧ (∀ last rest, is_closed last →
         read_cb send_rv p revents (chunks ++ last :: rest) w
         = Some (torn_down p (socketd c) (append_out tr w))).
Proof.
  intros Hq Hp Hdata.
  destruct (read_loop_data send_rv p chunks w Hq (mk_is_Some _ _ Hp) Hdata)
    as (tr & Hrun & Hatt).
  exists tr. split; [exact Hatt|]. unfold read_cb. split.
  - intros last rest Hwb. rewrite Hrun.
    apply read_loop_would_block; [by exists c | done].
  - intros last rest Hcl. rewrite Hrun.
    by apply read_loop_closed.
Qed.

Lemma consistent_socket_inj w x y :
  consistent w → x ∈ client_tailq_head w → y ∈ client_tailq_head w →
  socket_of w y = socket_of w x → y = x.
Proof.
  intros Hc Hx Hy. unfold socket_of.
  apply (cons_alloc w Hc) in Hx as [cx Hx].
  apply (cons_alloc w Hc) in Hy as [cy Hy].
  rewrite Hx, Hy. cbn. intros Heq. by apply (cons_inj w Hc y x cy cx).
Qed.

(** A [recv] answer that is well formed fills the buffer with exactly the
    bytes it counts. *)
Lemma received_all r :
  recv_rv r = Z.of_nat (length (recv_buf r)) → received r = recv_buf r.
Proof.
  intros Hlen. unfold received. rewrite Hlen, Nat2Z.id. apply firstn_all.
Qed.

Lemma elem_of_torn_down_queue p s w q :
  q ∈ client_tailq_head (torn_down p s w) ↔ q ∈ client_tailq_head w ∧ q ≠ p.
Proof.
  cbn. rewrite list_elem_of_filter. tauto.
Qed.

(** ** The read handler *)

(** C1. On a readiness event for a connected client [p], every answer of
    [recv] with [n > 0] bytes is handed to [send], as the first [n] bytes
    of the buffer, once for each client of the queue other than [p], in
    queue order and answer after answer; so each other client is sent the
    chunks in the order of receipt, and nothing is sent on the socket of
    [p]. *)
Theorem read_cb_relays_to_others send_rv w p revents chunks last rest :
  consistent w → p ∈ client_tailq_head w →
  Forall is_data chunks → ¬ is_data last →
  ∃ w' tr,
    read_cb send_rv p revents (chunks ++ last :: rest) w = Some w'
    ∧ out w' = out w ++ tr
    ∧ attempts tr
      = flat_map (λ r, fan_out w p (client_tailq_head w) (received r)) chunks
    ∧ (∀ q, q ∈ client_tailq_head w → q ≠ p →
         delivered (socket_of w q) (attempts tr) = map received chunks)
    ∧ delivered (socket_of w p) (attempts tr) = [].
Proof.
  intros Hc Hp Hdata Hlast.
  pose proof (consistent_queue_allocated w Hc) as Hq.
  destruct (proj1 (cons_alloc w Hc p) Hp) as [c Hpc].
  destruct (read_cb_run send_rv w p c revents chunks Hq Hpc Hdata)
    as (tr & Hatt & Hwb & Hcl).
  assert (∃ w', read_cb send_rv p revents (chunks ++ last :: rest) w = Some w'
                ∧ out w' = out w ++ tr) as (w' & Hrun & Hout).
  { destruct (not_data_cases last Hlast) as [H|H].
    - eexists. split; [by apply Hwb | done].
    - eexists. split; [by apply Hcl | done]. }
  exists w', tr. split; [done|]. split; [done|]. split; [done|].
  rewrite Hatt. unfold fan_out. split.
  - intros q Hqin Hne.
    rewrite delivered_flat_map, <- (flat_map_singleton received chunks).
    apply flat_map_ext. intros r.
    apply delivered_map_present.
    + apply NoDup_filter, (cons_nodup w Hc).
    + by apply list_elem_of_filter.
    + intros y Hy. apply list_elem_of_filter in Hy as [_ Hy].
      by apply consistent_socket_inj.
  - rewrite delivered_flat_map, <- (flat_map_nil (B := list byte) chunks).
    apply flat_map_ext. intros r.
    apply delivered_map_absent.
    intros y Hy Heq. apply list_elem_of_filter in Hy as [Hne Hy].
    apply Hne. by apply (consistent_socket_inj w p y).
Qed.

(** C2. When the last answer of [recv] is 0, or negative with an error
    other than [WSAEWOULDBLOCK], the same invocation stops the watcher of
    the client, unlinks it from the queue, closes its socket and frees the
    object; the other clients are left as they were, and no answer after
    that one is looked at. *)
Theorem read_cb_tears_down send_rv w p c revents chunks last :
  consistent w → heap w !! p = Some c →
  Forall is_data chunks → is_closed last →
  ∃ w',
    (∀ rest, read_cb send_rv p revents (chunks ++ last :: rest) w = Some w')
    ∧ (p ∉ loop_clients w') ∧ loop_clients w' = loop_clients w ∖ {[p]}
    ∧ (p ∉ client_tailq_head w')
    ∧ client_tailq_head w' = filter (λ q, q ≠ p) (client_tailq_head w)
    ∧ sockets w' !! socketd c = None
    ∧ sockets w' = delete (socketd c) (sockets w)
    ∧ heap w' !! p = None ∧ heap w' = delete p (heap w)
    ∧ (∃ tr, out w' = out w ++ tr
        ∧ attempts tr
          = flat_map (λ r, fan_out w p (client_tailq_head w) (received r))
              chunks).
Proof.
  intros Hc Hpc Hdata Hlast.
  pose proof (consistent_queue_allocated w Hc) as Hq.
  destruct (read_cb_run send_rv w p c revents chunks Hq Hpc Hdata)
    as (tr & Hatt & _ & Hcl).
  exists (torn_down p (socketd c) (append_out tr w)).
  split; [intros rest; by apply Hcl|]. cbn.
  split; [rewrite elem_of_difference, elem_of_singleton; tauto|].
  split; [done|].
  split; [rewrite list_elem_of_filter; tauto|]. split; [done|].
  split; [apply lookup_delete_eq|]. split; [done|].
  split; [apply lookup_delete_eq|]. split; [done|].
  by exists tr.
Qed.

(** C3. When [recv] fails with [WSAEWOULDBLOCK] the invocation ends and
    leaves the queue, the heap, the loop and the sockets as they were: the
    client is still linked, its watcher started, its socket open. With no
    data before it the whole state is unchanged. *)
Theorem read_cb_would_block_keeps_state send_rv w p c revents chunks last :
  consistent w → heap w !! p = Some c →
  Forall is_data chunks → is_would_block last →
  ∃ w',
    (∀ rest, read_cb send_rv p revents (chunks ++ last :: rest) w = Some w')
    ∧ client_tailq_head w' = client_tailq_head w
    ∧ heap w' = heap w
    ∧ loop_clients w' = loop_clients w ∧ loop_accept w' = loop_accept w
    ∧ sockets w' = sockets w
    ∧ p ∈ client_tailq_head w' ∧ p ∈ loop_clients w'
    ∧ is_Some (sockets w' !! socketd c)
    ∧ (chunks = [] → w' = w).
Proof.
  intros Hc Hpc Hdata Hlast.
  pose proof (consistent_queue_allocated w Hc) as Hq.
  destruct (read_cb_run send_rv w p c revents chunks Hq Hpc Hdata)
    as (tr & Hatt & Hwb & _).
  assert (p ∈ client_tailq_head w) as Hin
    by (apply (cons_alloc w Hc); by exists c).
  exists (append_out tr w). split; [intros rest; by apply Hwb|]. cbn.
  repeat (split; [done|]).
  split; [by apply (cons_watch w Hc)|].
  split; [by apply (cons_open w Hc p)|].
  intros ->. specialize (Hwb last [] Hlast).
  unfold read_cb in Hwb. cbn [app] in Hwb.
  rewrite read_loop_would_block in Hwb; [|by exists c|done].
  by injection Hwb.
Qed.

(** ** What [send] returns does not matter *)

Lemma erase_heap w1 w2 : erase w1 = erase w2 → heap w1 = heap w2.
Proof. intros H. exact (f_equal heap H). Qed.

Lemma erase_queue w1 w2 :
  erase w1 = erase w2 → client_tailq_head w1 = client_tailq_head w2.
Proof. intros H. exact (f_equal client_tailq_head H). Qed.

Lemma erase_emit_send s data flags rv1 rv2 w1 w2 :
  erase w1 = erase w2 →
  erase (emit (Send s data flags rv1) w1)
  = erase (emit (Send s data flags rv2) w2).
Proof.
  unfold erase, emit. cbn. intros H. injection H as -> -> -> -> -> -> Ho.
  by rewrite !fmap_app, Ho.
Qed.

Lemma erase_torn_down p s w1 w2 :
  erase w1 = erase w2 → erase (torn_down p s w1) = erase (torn_down p s w2).
Proof.
  unfold erase, torn_down. cbn. intros H.
  injection H as -> -> -> -> -> -> Ho. by rewrite Ho.
Qed.

Lemma foreach_send_erase rv1 rv2 this_client buffer read q w1 w2 :
  erase w1 = erase w2 →
  erase <$> foreach_send rv1 this_client buffer read q w1
  = erase <$> foreach_send rv2 this_client buffer read q w2.
Proof.
  revert w1 w2. induction q as [|client q IH]; intros w1 w2 He.
  - cbn. by rewrite He.
  - cbn [foreach_send]. case_decide; [|by apply IH].
    rewrite (erase_heap w1 w2 He).
    destruct (heap w2 !! client) as [c|]; [|done].
    cbn [mbind option_bind send snd]. by apply IH, erase_emit_send.
Qed.

Lemma read_loop_erase rv1 rv2 this_client answers w1 w2 :
  erase w1 = erase w2 →
  erase <$> read_loop rv1 this_client answers w1
  = erase <$> read_loop rv2 this_client answers w2.
Proof.
  revert w1 w2. induction answers as [|r answers IH]; intros w1 w2 He; [done|].
  cbn [read_loop]. rewrite (erase_heap w1 w2 He).
  destruct (heap w2 !! this_client) as [c|] eqn:Hc; [|done].
  cbn [mbind option_bind]. case_decide; [cbn; by rewrite He|].
  case_decide.
  - cbn [heap TAILQ_REMOVE ev_io_stop set_tailq set_loop_clients].
    rewrite (erase_heap w1 w2 He), Hc. cbn [mbind option_bind fmap option_fmap option_map].
    f_equal. by apply (erase_torn_down this_client (socketd c)).
  - rewrite (erase_queue w1 w2 He).
    pose proof (foreach_send_erase rv1 rv2 this_client (recv_buf r)
                  (recv_rv r) (client_tailq_head w2) w1 w2 He) as Hs.
    destruct (foreach_send rv1 this_client (recv_buf r) (recv_rv r)
                (client_tailq_head w2) w1) as [x1|],
             (foreach_send rv2 this_client (recv_buf r) (recv_rv r)
                (client_tailq_head w2) w2) as [x2|];
      cbn in Hs; try discriminate; [|done].
    apply (IH x1 x2). exact (Some_inj _ _ Hs).
Qed.

(** C8. Whatever [send] returns for any call of a broadcast, failure
    included, the invocation of [read_cb] runs to the same end: the same
    [send] calls are made, exactly one per recipient and chunk and in the
    same order, and the queue, the heap, the loop and the sockets end up
    the same; two runs differ in nothing but the values [send] returned. *)
Theorem send_results_are_ignored rv1 rv2 w p revents chunks last rest :
  consistent w → p ∈ client_tailq_head w →
  Forall is_data chunks → ¬ is_data last →
  ∃ w1 w2 tr1,
    read_cb rv1 p revents (chunks ++ last :: rest) w = Some w1
    ∧ read_cb rv2 p revents (chunks ++ last :: rest) w = Some w2
    ∧ erase w1 = erase w2
    ∧ out w1 = out w ++ tr1
    ∧ attempts tr1
      = flat_map (λ r, fan_out w p (client_tailq_head w) (received r)) chunks.
Proof.
  intros Hc Hp Hdata Hlast.
  pose proof (consistent_queue_allocated w Hc) as Hq.
  destruct (proj1 (cons_alloc w Hc p) Hp) as [c Hpc].
  destruct (read_cb_run rv1 w p c revents chunks Hq Hpc Hdata)
    as (tr1 & Hatt1 & Hwb1 & Hcl1).
  destruct (read_cb_run rv2 w p c revents chunks Hq Hpc Hdata)
    as (tr2 & _ & Hwb2 & Hcl2).
  pose proof (read_loop_erase rv1 rv2 p (chunks ++ last :: rest) w w eq_refl)
    as He.
  fold (read_cb rv1 p revents (chunks ++ last :: rest) w) in He.
  fold (read_cb rv2 p revents (chunks ++ last :: rest) w) in He.
  destruct (not_data_cases last Hlast) as [H|H].
  - rewrite (Hwb1 last rest H), (Hwb2 last rest H) in He.
    do 2 eexists. exists tr1.
    split; [by apply Hwb1|]. split; [by apply Hwb2|].
    split; [exact (Some_inj _ _ He)|]. by split.
  - rewrite (Hcl1 last rest H), (Hcl2 last rest H) in He.
    do 2 eexists. exists tr1.
    split; [by apply Hcl1|]. split; [by apply Hcl2|].
    split; [exact (Some_inj _ _ He)|]. by split.
Qed.

(** ** The accept handler and the start-up *)

Section PlatformFacts.

Variable FormatMessageA : Z → string.
Variable strerror : Z → string.
Variable inet_ntoa : Z → string.

Local Abbreviation accept_cb := (accept_cb FormatMessageA strerror inet_ntoa).
Local Abbreviation main := (main FormatMessageA).
Local Abbreviation reachable := (reachable FormatMessageA strerror inet_ntoa).
Local Abbreviation dispatch := (dispatch FormatMessageA strerror inet_ntoa).
Local Abbreviation accepted_notice := (accepted_notice inet_ntoa).
Local Abbreviation socket_error_line := (socket_error_line FormatMessageA).

(** The four ways through [accept_cb]. *)
Lemma accept_cb_invalid_event revents env w :
  Z.land EV_ERROR revents ≠ 0 →
  accept_cb revents env w
  = perror strerror "Got invalid event" (acc_errno env) w.
Proof. intros H. unfold accept_cb. by rewrite decide_True. Qed.

Lemma accept_cb_accept_fails revents env w :
  Z.land EV_ERROR revents = 0 → acc_socket env = INVALID_SOCKET →
  accept_cb revents env w
  = socket_perror FormatMessageA "Accept error" (acc_wsa_error env) w.
Proof.
  intros H Hs. unfold accept_cb, accept.
  rewrite decide_False by (intros Hn; by apply Hn).
  rewrite (decide_True _ _ Hs). cbn [fst snd]. by rewrite decide_True.
Qed.

Lemma accept_cb_calloc_fails revents env w :
  Z.land EV_ERROR revents = 0 → acc_socket env ≠ INVALID_SOCKET →
  acc_calloc env = NULL →
  accept_cb revents env w
  = perror strerror "malloc failed" (acc_errno env)
      (set_sockets (<[acc_socket env := acc_state env]>) w).
Proof.
  intros H Hs Hp. unfold accept_cb, accept, calloc_client.
  rewrite decide_False by (intros Hn; by apply Hn).
  rewrite (decide_False _ _ Hs). cbn [fst snd].
  rewrite decide_False by (intros Hn; by apply Hs).
  rewrite (decide_True _ _ Hp). cbn [fst snd]. by rewrite decide_True.
Qed.

Lemma accept_cb_registers revents env w :
  Z.land EV_ERROR revents = 0 → acc_socket env ≠ INVALID_SOCKET →
  acc_calloc env ≠ NULL →
  accept_cb revents env w
  = {| client_tailq_head := client_tailq_head w ++ [acc_calloc env];
       heap := <[acc_calloc env := new_client env]> (heap w);
       w_accept := w_accept w; loop_accept := loop_accept w;
       loop_clients := {[acc_calloc env]} ∪ loop_clients w;
       sockets := <[acc_socket env := acc_state env]> (sockets w);
       out := out w ++ [accepted_notice (acc_addr env)] |}.
Proof.
  intros H Hs Hp. unfold accept_cb, accept, calloc_client.
  rewrite decide_False by (intros Hn; by apply Hn).
  rewrite (decide_False _ _ Hs). cbn [fst snd].
  rewrite decide_False by (intros Hn; by apply Hs).
  rewrite (decide_False _ _ Hp). cbn [fst snd].
  rewrite (decide_False _ _ Hp).
  unfold emit, ev_io_start, TAILQ_INSERT_TAIL, set_heap, set_sockets,
    set_loop_clients, set_tailq. cbn.
  by rewrite !alter_insert_eq.
Qed.

(** [accept_cb] makes no call that sets the mode of the accepted socket:
    when the client is linked and its watcher started, the socket is in
    the state in which [accept] returned it. *)
Lemma accept_cb_keeps_socket_mode revents env w :
  Z.land EV_ERROR revents = 0 → acc_socket env ≠ INVALID_SOCKET →
  acc_calloc env ≠ NULL →
  acc_calloc env ∈ client_tailq_head (accept_cb revents env w)
  ∧ acc_calloc env ∈ loop_clients (accept_cb revents env w)
  ∧ socket_of (accept_cb revents env w) (acc_calloc env) = acc_socket env
  ∧ sockets (accept_cb revents env w) !! acc_socket env = Some (acc_state env)
  ∧ (nonblocking <$> sockets (accept_cb revents env w) !! acc_socket env
     = Some true ↔ nonblocking (acc_state env) = true).
Proof.
  intros H Hs Hp. rewrite (accept_cb_registers revents env w H Hs Hp).
  unfold socket_of. cbn. rewrite !lookup_insert_eq. cbn.
  split; [apply elem_of_app; right; by left|].
  split; [apply elem_of_union_l; by apply elem_of_singleton|].
  split; [done|]. split; [done|].
  split; intros Hnb; congruence.
Qed.

(** C5, amended. When [accept] succeeds and the client object is
    allocated, the object at the address that [calloc] returned wraps the
    accepted socket and is the one client added: it is linked at the tail
    of the queue, which is otherwise as before, its watcher is started,
    and the notice with the address of the peer is printed. *)
Theorem accept_cb_adds_one_peer revents env w :
  consistent w → env_ok (AcceptReady revents env) w →
  Z.land EV_ERROR revents = 0 → acc_socket env ≠ INVALID_SOCKET →
  acc_calloc env ≠ NULL →
  (acc_calloc env ∉ client_tailq_head w)
  ∧ client_tailq_head (accept_cb revents env w)
    = client_tailq_head w ++ [acc_calloc env]
  ∧ heap (accept_cb revents env w)
    = <[acc_calloc env := new_client env]> (heap w)
  ∧ socket_of (accept_cb revents env w) (acc_calloc env) = acc_socket env
  ∧ loop_clients (accept_cb revents env w)
    = {[acc_calloc env]} ∪ loop_clients w
  ∧ loop_accept (accept_cb revents env w) = loop_accept w
  ∧ out (accept_cb revents env w) = out w ++ [accepted_notice (acc_addr env)].
Proof.
  intros Hc (_ & _ & Hfresh) H Hs Hp.
  rewrite (accept_cb_registers revents env w H Hs Hp).
  unfold socket_of. cbn. rewrite lookup_insert_eq.
  split; [|done].
  intros Hin. apply (cons_alloc w Hc) in Hin as [c Hin]. congruence.
Qed.

(** C6. When [accept] fails the handler prints the error and returns:
    nothing is allocated, the queue, the watchers of the loop (the one of
    the listener included) and the sockets are as before. *)
Theorem accept_cb_failed_accept revents env w :
  Z.land EV_ERROR revents = 0 → acc_socket env = INVALID_SOCKET →
  out (accept_cb revents env w)
  = out w ++ [Stderr ("Accept error" +:+ ": "
                      +:+ FormatMessageA (acc_wsa_error env) +:+ nl)]
  ∧ client_tailq_head (accept_cb revents env w) = client_tailq_head w
  ∧ heap (accept_cb revents env w) = heap w
  ∧ loop_clients (accept_cb revents env w) = loop_clients w
  ∧ loop_accept (accept_cb revents env w) = loop_accept w
  ∧ w_accept (accept_cb revents env w) = w_accept w
  ∧ sockets (accept_cb revents env w) = sockets w.
Proof.
  intros H Hs. by rewrite (accept_cb_accept_fails revents env w H Hs).
Qed.

(** C10. When [calloc] returns [NULL] after [accept] succeeded, the
    handler prints a diagnostic and returns: the queue, the heap and the
    watchers are as before, and the accepted socket stays open. *)
Theorem accept_cb_failed_calloc revents env w :
  Z.land EV_ERROR revents = 0 → acc_socket env ≠ INVALID_SOCKET →
  acc_calloc env = NULL →
  out (accept_cb revents env w)
  = out w ++ [Stderr ("malloc failed" +:+ ": "
                      +:+ strerror (acc_errno env) +:+ nl)]
  ∧ client_tailq_head (accept_cb revents env w) = client_tailq_head w
  ∧ heap (accept_cb revents env w) = heap w
  ∧ loop_clients (accept_cb revents env w) = loop_clients w
  ∧ sockets (accept_cb revents env w)
    = <[acc_socket env := acc_state env]> (sockets w)
  ∧ sockets (accept_cb revents env w) !! acc_socket env
    = Some (acc_state env).
Proof.
  intros H Hs Hp. rewrite (accept_cb_calloc_fails revents env w H Hs Hp).
  cbn. by rewrite lookup_insert_eq.
Qed.

(** When every call of the start-up succeeds, [main] enters the loop with
    an empty queue and the watcher of the listener started. *)
Lemma main_dispatch env w :
  main env = Dispatch w →
  client_tailq_head w = [] ∧ heap w = ∅ ∧ loop_clients w = ∅
  ∧ loop_accept w = true ∧ out w = [].
Proof.
  unfold main. repeat case_decide; try discriminate.
  intros Hw. injection Hw as <-. by cbn.
Qed.

Lemma main_success env :
  st_socket env ≠ INVALID_SOCKET → st_ioctlsocket env = 0 →
  st_setsockopt env = 0 → st_bind env = 0 → st_listen env = 0 →
  ∃ w, main env = Dispatch w
       ∧ sockets w !! st_socket env
         = Some {| nonblocking := true; reuseaddr := true;
                   bound_port := Some SERVER_PORT; backlog := Some 5 |}.
Proof.
  intros Hs Hi Ho Hb Hl. unfold main.
  rewrite decide_False by (intros Hn; by apply Hs).
  rewrite !decide_False by (intros Hn; by apply Hn).
  eexists. split; [done|]. cbn.
  rewrite !lookup_alter_eq, lookup_insert_eq. done.
Qed.

(** C7. When creating the listening socket, setting it non-blocking,
    setting [SO_REUSEADDR], binding or listening fails, [main] prints the
    name of the call with the text of the error and returns
    [EXIT_FAILURE], which is not zero; it does not reach the loop, and no
    watcher has been started. *)
Theorem main_startup_failure env :
  st_socket env = INVALID_SOCKET ∨ st_ioctlsocket env ≠ 0
  ∨ st_setsockopt env ≠ 0 ∨ st_bind env ≠ 0 ∨ st_listen env ≠ 0 →
  ∃ w message,
    main env = Exit EXIT_FAILURE w
    ∧ EXIT_FAILURE ≠ 0
    ∧ (∀ w', main env ≠ Dispatch w')
    ∧ message ∈ ["socket"; "ioctlsocket"; "setsockopt"; "bind"; "listen"]
    ∧ out w = [socket_error_line message (st_wsa_error env)]
    ∧ loop_accept w = false ∧ loop_clients w = ∅
    ∧ client_tailq_head w = [].
Proof.
  intros Hfail. unfold main.
  destruct (decide (INVALID_SOCKET = st_socket env)).
  { eexists _, "socket". repeat split; try done. apply list_elem_of_In; cbn; auto 10. }
  destruct (decide (0 ≠ st_ioctlsocket env)).
  { eexists _, "ioctlsocket". repeat split; try done. apply list_elem_of_In; cbn; auto 10. }
  destruct (decide (0 ≠ st_setsockopt env)).
  { eexists _, "setsockopt". repeat split; try done. apply list_elem_of_In; cbn; auto 10. }
  destruct (decide (0 ≠ st_bind env)).
  { eexists _, "bind". repeat split; try done. apply list_elem_of_In; cbn; auto 10. }
  destruct (decide (0 ≠ st_listen env)).
  { eexists _, "listen". repeat split; try done. apply list_elem_of_In; cbn; auto 10. }
  exfalso. destruct Hfail as [?|[?|[?|[?|?]]]]; lia.
Qed.

(** ** The invariant of the dispatch loop *)

Lemma consistent_start w :
  client_tailq_head w = [] → heap w = ∅ → loop_clients w = ∅ → consistent w.
Proof.
  intros Hq Hh Hl. split.
  - rewrite Hq. constructor.
  - intros p. rewrite Hq, Hh, lookup_empty. split.
    + by intros ?%elem_of_nil.
    + by intros ?%is_Some_None.
  - intros p. rewrite Hq, Hl. split.
    + by intros ?%elem_of_empty.
    + by intros ?%elem_of_nil.
  - intros p c. by rewrite Hh, lookup_empty.
  - intros p q c d. by rewrite Hh, lookup_empty.
Qed.

Lemma consistent_open_socket s st w :
  consistent w → consistent (set_sockets (<[s := st]>) w).
Proof.
  intros [H1 H2 H3 H4 H5]. split; try done.
  intros p c Hp. cbn in *. destruct (decide (s = socketd c)) as [->|Hne].
  - rewrite lookup_insert_eq. by eexists.
  - rewrite lookup_insert_ne by done. by apply (H4 p).
Qed.

Lemma consistent_torn_down p c w :
  consistent w → heap w !! p = Some c →
  consistent (torn_down p (socketd c) w).
Proof.
  intros [H1 H2 H3 H4 H5] Hp. split; cbn.
  - by apply NoDup_filter.
  - intros q. rewrite list_elem_of_filter, H2.
    destruct (decide (q = p)) as [->|Hne].
    + rewrite lookup_delete_eq. split; [tauto|]. by intros ?%is_Some_None.
    + rewrite lookup_delete_ne by done. tauto.
  - intros q. rewrite list_elem_of_filter, elem_of_difference,
      elem_of_singleton, H3. tauto.
  - intros q d Hq. destruct (decide (q = p)) as [->|Hne].
    { by rewrite lookup_delete_eq in Hq. }
    rewrite lookup_delete_ne in Hq by done.
    rewrite lookup_delete_ne; [by apply (H4 q)|].
    intros Heq. apply Hne. symmetry. by apply (H5 p q c d).
  - intros q1 q2 d1 d2 Hq1 Hq2.
    destruct (decide (q1 = p)) as [->|Hn1];
      [by rewrite lookup_delete_eq in Hq1|].
    destruct (decide (q2 = p)) as [->|Hn2];
      [by rewrite lookup_delete_eq in Hq2|].
    rewrite lookup_delete_ne in Hq1, Hq2 by done. by apply H5.
Qed.

Lemma consistent_accept_cb revents env w :
  consistent w → env_ok (AcceptReady revents env) w →
  consistent (accept_cb revents env w).
Proof.
  intros Hc (_ & Hsock & Hfresh).
  destruct (decide (Z.land EV_ERROR revents = 0)) as [Hev|Hev];
    [|rewrite accept_cb_invalid_event by done; by apply consistent_append].
  destruct (decide (acc_socket env = INVALID_SOCKET)) as [Hs|Hs];
    [rewrite accept_cb_accept_fails by done; by apply consistent_append|].
  destruct (decide (acc_calloc env = NULL)) as [Hp|Hp].
  { rewrite accept_cb_calloc_fails by done.
    by apply (consistent_append [_]), consistent_open_socket. }
  rewrite accept_cb_registers by done.
  assert (acc_calloc env ∉ client_tailq_head w) as Hnew.
  { intros Hin. apply (cons_alloc w Hc) in Hin as [c Hin]. congruence. }
  destruct Hc as [H1 H2 H3 H4 H5]. split; cbn.
  - apply NoDup_app. split; [done|]. split; [|apply NoDup_singleton].
    intros x Hx ->%list_elem_of_singleton. by apply Hnew.
  - intros q. rewrite elem_of_app, list_elem_of_singleton, H2.
    destruct (decide (q = acc_calloc env)) as [->|Hne].
    + rewrite lookup_insert_eq. split; [by eexists | by right].
    + rewrite lookup_insert_ne by done. split; [by intros [?|?] | by left].
  - intros q. rewrite elem_of_union, elem_of_singleton, elem_of_app,
      list_elem_of_singleton, H3. tauto.
  - intros q d. destruct (decide (q = acc_calloc env)) as [->|Hne].
    + rewrite lookup_insert_eq. intros [= <-]. cbn.
      rewrite lookup_insert_eq. by eexists.
    + rewrite lookup_insert_ne by done. intros Hq.
      destruct (H4 q d Hq) as [st Hst].
      rewrite lookup_insert_ne; [by eexists|]. congruence.
  - intros q1 q2 d1 d2.
    destruct (decide (q1 = acc_calloc env)) as [->|Hn1],
             (decide (q2 = acc_calloc env)) as [->|Hn2]; [done|..].
    + rewrite lookup_insert_eq, lookup_insert_ne by done.
      intros [= <-] Hq2 Heq. cbn in Heq.
      destruct (H4 q2 d2 Hq2) as [st Hst]. congruence.
    + rewrite lookup_insert_eq, lookup_insert_ne by done.
      intros Hq1 [= <-] Heq. cbn in Heq.
      destruct (H4 q1 d1 Hq1) as [st Hst]. congruence.
    + rewrite !lookup_insert_ne by done. apply H5.
Qed.

Lemma consistent_read_loop send_rv p answers w w' :
  consistent w → read_loop send_rv p answers w = Some w' → consistent w'.
Proof.
  revert w. induction answers as [|r answers IH]; intros w Hc; [done|].
  cbn [read_loop]. destruct (heap w !! p) as [c|] eqn:Hp; [|done].
  cbn [mbind option_bind]. case_decide; [by intros [= <-]|].
  case_decide.
  - cbn [heap TAILQ_REMOVE ev_io_stop set_tailq set_loop_clients].
    rewrite Hp. cbn [mbind option_bind]. intros [= <-].
    by apply (consistent_torn_down p c w).
  - destruct (foreach_send_spec send_rv p (recv_buf r) (recv_rv r)
                (client_tailq_head w) w (consistent_queue_allocated w Hc))
      as (tr & -> & _).
    cbn [mbind option_bind]. apply IH. by apply consistent_append.
Qed.

Lemma reachable_consistent w : reachable w → consistent w.
Proof.
  induction 1 as [env w Hmain|w cb w' _ IH Hok Hstep].
  - apply main_dispatch in Hmain as (Hq & Hh & Hl & _). by apply consistent_start.
  - destruct cb as [revents env|watcher revents answers send_rv]; cbn in Hstep.
    + injection Hstep as <-. by apply consistent_accept_cb.
    + by apply (consistent_read_loop send_rv watcher answers w).
Qed.

(** The loop does not get stuck on a read: in a reachable state, for a
    started watcher and answers that end with one that carries no data,
    [read_cb] returns. *)
Lemma reachable_read_cb_returns send_rv w p revents chunks last rest :
  reachable w → p ∈ loop_clients w →
  Forall is_data chunks → ¬ is_data last →
  is_Some (dispatch (ReadReady p revents (chunks ++ last :: rest) send_rv) w).
Proof.
  intros Hc%reachable_consistent Hp Hdata Hlast. cbn.
  apply (cons_watch w Hc), (cons_alloc w Hc) in Hp as [c Hp].
  destruct (read_cb_run send_rv w p c revents chunks
              (consistent_queue_allocated w Hc) Hp Hdata)
    as (tr & _ & Hwb & Hcl).
  destruct (not_data_cases last Hlast) as [H|H].
  - rewrite (Hwb last rest H). by eexists.
  - rewrite (Hcl last rest H). by eexists.
Qed.

End PlatformFacts.

(** ** More on the read handler *)

Lemma foreach_send_inv send_rv this_client buffer read q w w' :
  foreach_send send_rv this_client buffer read q w = Some w' →
  ∃ tr, w' = append_out tr w ∧ Forall is_send tr.
Proof.
  revert w. induction q as [|client q IH]; intros w; cbn [foreach_send].
  - intros [= <-]. exists []. by rewrite append_out_nil.
  - case_decide; [|apply IH].
    destruct (heap w !! client) as [c|]; [|done].
    cbn [mbind option_bind send snd]. intros Hrun.
    apply IH in Hrun as (tr & -> & Htr).
    rewrite emit_append, append_out_app. eexists. split; [done|].
    apply Forall_app. split; [|done].
    apply Forall_singleton. by eexists _, _, _.
Qed.

(** Every way [read_loop] can end: the events added are [send] calls, and
    the state is the one at entry or the one with the client torn down. *)
Lemma read_loop_inv send_rv p answers w w' :
  read_loop send_rv p answers w = Some w' →
  ∃ c tr,
    heap w !! p = Some c ∧ Forall is_send tr
    ∧ (w' = append_out tr w ∨ w' = torn_down p (socketd c) (append_out tr w)).
Proof.
  revert w. induction answers as [|r answers IH]; intros w; [done|].
  cbn [read_loop]. destruct (heap w !! p) as [c|] eqn:Hp; [|done].
  cbn [mbind option_bind]. case_decide.
  { intros [= <-]. exists c, []. rewrite append_out_nil. by repeat split; [|left]. }
  case_decide.
  { cbn [heap TAILQ_REMOVE ev_io_stop set_tailq set_loop_clients].
    rewrite Hp. cbn [mbind option_bind]. intros [= <-].
    exists c, []. rewrite append_out_nil. by repeat split; [|right]. }
  destruct (foreach_send send_rv p (recv_buf r) (recv_rv r)
              (client_tailq_head w) w) as [w1|] eqn:Hs; [|done].
  apply foreach_send_inv in Hs as (t1 & -> & Ht1).
  cbn [mbind option_bind]. intros Hrun.
  apply IH in Hrun as (c' & t2 & Hp' & Ht2 & Hw').
  cbn in Hp'. rewrite Hp in Hp'. injection Hp' as <-.
  exists c, (t1 ++ t2). split; [done|]. split; [by apply Forall_app|].
  by rewrite <- append_out_app.
Qed.

Lemma filter_ne_twice (p : Z) (l : list Z) :
  filter (λ q, q ≠ p) (filter (λ q, q ≠ p) l) = filter (λ q, q ≠ p) l.
Proof.
  induction l as [|x l IH]; [done|]. rewrite filter_cons.
  case_decide; [|done]. rewrite filter_cons_True by done. by rewrite IH.
Qed.

(** X1. Whatever the answers of [recv] and [send], an invocation of
    [read_cb] that returns has left alone the listener, every socket other
    than the one of its own client, and every other client: their objects,
    their watchers and their places in the queue, which keeps the others
    in the order they had. *)
Theorem read_cb_touches_only_its_client send_rv p revents answers w w' :
  read_cb send_rv p revents answers w = Some w' →
  w_accept w' = w_accept w ∧ loop_accept w' = loop_accept w
  ∧ (∀ s, s ≠ socket_of w p → sockets w' !! s = sockets w !! s)
  ∧ (∀ q, q ≠ p →
       heap w' !! q = heap w !! q
       ∧ (q ∈ loop_clients w' ↔ q ∈ loop_clients w)
       ∧ (q ∈ client_tailq_head w' ↔ q ∈ client_tailq_head w))
  ∧ filter (λ q, q ≠ p) (client_tailq_head w')
    = filter (λ q, q ≠ p) (client_tailq_head w).
Proof.
  intros (c & tr & Hp & _ & [->| ->])%read_loop_inv; [by cbn|].
  unfold socket_of. rewrite Hp. cbn.
  split; [done|]. split; [done|]. split; [|split].
  - intros s Hs. by rewrite lookup_delete_ne.
  - intros q Hq. rewrite lookup_delete_ne by done. split; [done|].
    rewrite elem_of_difference, elem_of_singleton, list_elem_of_filter. tauto.
  - apply filter_ne_twice.
Qed.

(** X2. [read_cb] prints nothing: whatever happens to its client, all it
    adds to the output are [send] calls with flags 0. *)
Theorem read_cb_only_sends send_rv p revents answers w w' :
  read_cb send_rv p revents answers w = Some w' →
  ∃ tr, out w' = out w ++ tr ∧ Forall is_send tr.
Proof.
  intros (c & tr & _ & Htr & [->| ->])%read_loop_inv; by exists tr.
Qed.

Lemma foreach_send_only_self send_rv p buffer read w :
  foreach_send send_rv p buffer read [p] w = Some w.
Proof. cbn [foreach_send]. rewrite decide_False; [done|]. by intros Hn. Qed.

(** X3. A client that is alone in the queue is read and not relayed: the
    data is dropped, no [send] is made, and when [recv] would block the
    state is exactly the one at entry. *)
Theorem read_cb_lone_client send_rv w p revents chunks last rest :
  client_tailq_head w = [p] → is_Some (heap w !! p) →
  Forall is_data chunks → is_would_block last →
  read_cb send_rv p revents (chunks ++ last :: rest) w = Some w.
Proof.
  intros Hq [c Hp] Hdata Hlast. unfold read_cb.
  induction Hdata as [|r chunks Hr _ IH].
  - apply read_loop_would_block; [by exists c | done].
  - cbn [app read_loop]. rewrite Hp. cbn [mbind option_bind].
    unfold is_data in Hr.
    rewrite decide_False by lia. rewrite decide_False by lia.
    rewrite Hq, foreach_send_only_self. exact IH.
Qed.

(** X4. How the data is split over readiness events does not matter: an
    invocation that relays [chunks] and stops on would-block, followed by
    an invocation on further answers, ends as one invocation on all the
    answers in a row. *)
Theorem read_cb_split_events send_rv w p ev1 ev2 chunks last rest answers :
  consistent w → p ∈ client_tailq_head w →
  Forall is_data chunks → is_would_block last →
  read_cb send_rv p ev1 (chunks ++ last :: rest) w
    ≫= read_cb send_rv p ev2 answers
  = read_cb send_rv p ev1 (chunks ++ answers) w.
Proof.
  intros Hc Hp Hdata Hlast.
  pose proof (consistent_queue_allocated w Hc) as Hq.
  apply (cons_alloc w Hc) in Hp as [c Hp].
  destruct (read_loop_data send_rv p chunks w Hq (mk_is_Some _ _ Hp) Hdata)
    as (tr & Hrun & _).
  unfold read_cb. rewrite !Hrun.
  rewrite read_loop_would_block; [done | by exists c | done].
Qed.

Lemma filter_ne_absent (p : Z) (l : list Z) :
  p ∉ l → filter (λ q, q ≠ p) l = l.
Proof.
  induction l as [|x l IH]; intros Hp; [done|].
  apply not_elem_of_cons in Hp as [Hne Hp].
  rewrite filter_cons_True by done. by rewrite IH.
Qed.

Lemma length_filter_ne (p : Z) (l : list Z) :
  NoDup l → p ∈ l → (length (filter (λ q, q ≠ p) l) + 1 = length l)%nat.
Proof.
  induction l as [|x l IH]; intros Hnd Hin; [by apply elem_of_nil in Hin|].
  apply NoDup_cons in Hnd as [Hx Hnd]. rewrite filter_cons.
  destruct (decide (x ≠ p)) as [Hne|Heq].
  - apply elem_of_cons in Hin as [->|Hin]; [done|].
    cbn [length]. rewrite <- (IH Hnd Hin). lia.
  - assert (x = p) as -> by (destruct (decide (x = p)); [done | by elim Heq]).
    rewrite (filter_ne_absent p l Hx). cbn [length]. lia.
Qed.

Lemma length_flat_map_const {A B} (f : A → list B) (n : nat) (l : list A) :
  (∀ x, length (f x) = n) → length (flat_map f l) = (length l * n)%nat.
Proof.
  intros Hf. induction l as [|x l IH]; [done|].
  cbn [flat_map length]. rewrite length_app, Hf, IH. lia.
Qed.

(** X5. The cost of an invocation: with [n] clients in the queue, each
    chunk received costs exactly [n - 1] calls of [send], and these calls
    are all that the invocation adds to the output. *)
Theorem read_cb_send_count send_rv w p revents chunks last rest :
  consistent w → p ∈ client_tailq_head w →
  Forall is_data chunks → ¬ is_data last →
  ∃ w' tr,
    read_cb send_rv p revents (chunks ++ last :: rest) w = Some w'
    ∧ out w' = out w ++ tr
    ∧ Forall is_send tr
    ∧ length (attempts tr)
      = (length chunks * (length (client_tailq_head w) - 1))%nat
    ∧ length tr
      = (length chunks * (length (client_tailq_head w) - 1))%nat.
Proof.
  intros Hc Hp Hdata Hlast.
  pose proof (consistent_queue_allocated w Hc) as Hq.
  destruct (proj1 (cons_alloc w Hc p) Hp) as [c Hpc].
  destruct (read_cb_run send_rv w p c revents chunks Hq Hpc Hdata)
    as (tr & Hatt & Hwb & Hcl).
  assert (length (attempts tr)
          = (length chunks * (length (client_tailq_head w) - 1))%nat) as Hlen.
  { rewrite Hatt. apply length_flat_map_const. intros r.
    unfold fan_out. rewrite length_map.
    pose proof (length_filter_ne p _ (cons_nodup w Hc) Hp). lia. }
  assert (∃ w', read_cb send_rv p revents (chunks ++ last :: rest) w = Some w'
                ∧ out w' = out w ++ tr) as (w' & Hrun & Hout).
  { destruct (not_data_cases last Hlast) as [H|H].
    - eexists. split; [by apply Hwb | done].
    - eexists. split; [by apply Hcl | done]. }
  exists w', tr. split; [done|]. split; [done|].
  destruct (read_loop_inv send_rv p _ w w' Hrun) as (c' & tr' & _ & Hs & Hw').
  assert (tr' = tr) as ->.
  { destruct Hw' as [->| ->]; cbn in Hout; by apply app_inv_head in Hout. }
  split; [done|]. split; [done|]. rewrite <- Hlen.
  clear -Hs. induction Hs as [|e tr (s & d & rv & ->) _ IH]; [done|].
  cbn. by rewrite IH.
Qed.

Lemma delivered_map_none (f : Z → Z) (s : Z) (data : list byte) (l : list Z) :
  (∀ y, y ∈ l → f y ≠ s) → delivered s (map (λ y, (f y, data)) l) = [].
Proof.
  induction l as [|y l IH]; intros Hne; [done|].
  unfold delivered. cbn [map]. rewrite filter_cons_False.
  - apply IH. intros z Hz. apply Hne. by right.
  - cbn. apply Hne. by left.
Qed.

(** What each client is sent during the data iterations of an invocation
    for [p] in a consistent state. *)
Lemma delivered_fan_out w p q chunks :
  consistent w → q ∈ client_tailq_head w → q ≠ p →
  delivered (socket_of w q)
    (flat_map (λ r, fan_out w p (client_tailq_head w) (received r)) chunks)
  = map received chunks.
Proof.
  intros Hc Hq Hne.
  rewrite delivered_flat_map, <- (flat_map_singleton received chunks).
  apply flat_map_ext. intros r. unfold fan_out.
  apply delivered_map_present.
  - apply NoDup_filter, (cons_nodup w Hc).
  - by apply list_elem_of_filter.
  - intros y Hy. apply list_elem_of_filter in Hy as [_ Hy].
    by apply consistent_socket_inj.
Qed.

(** The tear-down keeps the state consistent, whatever the platform. *)
Lemma torn_down_consistent p c w :
  consistent w → heap w !! p = Some c →
  consistent (torn_down p (socketd c) w).
Proof.
  exact (consistent_torn_down (λ _, EmptyString) (λ _, EmptyString)
           (λ _, EmptyString) p c w).
Qed.

Lemma socket_of_torn_down p s w q :
  q ≠ p → socket_of (torn_down p s w) q = socket_of w q.
Proof. intros Hne. unfold socket_of. cbn. by rewrite lookup_delete_ne. Qed.

(** X6. A client that leaves takes nobody with it: after the tear-down of
    [p] the state is consistent again, the queue is shorter by exactly
    one, and every other client is still linked with its watcher started,
    its object unchanged and its socket open. *)
Theorem read_cb_teardown_spares_others send_rv w p c revents chunks last rest :
  consistent w → heap w !! p = Some c →
  Forall is_data chunks → is_closed last →
  ∃ w',
    read_cb send_rv p revents (chunks ++ last :: rest) w = Some w'
    ∧ consistent w'
    ∧ (length (client_tailq_head w') + 1 = length (client_tailq_head w))%nat
    ∧ ∀ q, q ∈ client_tailq_head w → q ≠ p →
        q ∈ client_tailq_head w' ∧ q ∈ loop_clients w'
        ∧ heap w' !! q = heap w !! q
        ∧ sockets w' !! socket_of w q = sockets w !! socket_of w q
        ∧ is_Some (sockets w' !! socket_of w q).
Proof.
  intros Hc Hpc Hdata Hlast.
  pose proof (consistent_queue_allocated w Hc) as Hq.
  destruct (read_cb_run send_rv w p c revents chunks Hq Hpc Hdata)
    as (tr & _ & _ & Hcl).
  assert (p ∈ client_tailq_head w) as Hp
    by (apply (cons_alloc w Hc); by exists c).
  exists (torn_down p (socketd c) (append_out tr w)).
  split; [by apply Hcl|].
  split; [apply torn_down_consistent; [by apply consistent_append | done]|].
  split; [apply length_filter_ne; [apply (cons_nodup w Hc) | done]|].
  intros q Hqin Hne. cbn.
  destruct (proj1 (cons_alloc w Hc q) Hqin) as [d Hd].
  assert (socket_of w q ≠ socketd c) as Hsock.
  { unfold socket_of. rewrite Hd. cbn. intros Heq.
    apply Hne. by apply (cons_inj w Hc q p d c). }
  split; [by apply list_elem_of_filter|].
  split.
  { apply elem_of_difference. split; [by apply (cons_watch w Hc)|].
    by intros ?%elem_of_singleton. }
  split; [by apply lookup_delete_ne|].
  rewrite lookup_delete_ne by done. split; [done|].
  unfold socket_of. rewrite Hd. cbn. by apply (cons_open w Hc q).
Qed.

(** X7. A client that has left is sent nothing any more: in the state
    after the tear-down of [p], an invocation for another client [q]
    relays its chunks to every client that is left and makes no [send] on
    the socket that [p] had. *)
Theorem read_cb_after_teardown rv1 rv2 w p c q ev1 ev2 chunks last rest
    chunks' last' rest' :
  consistent w → heap w !! p = Some c →
  Forall is_data chunks → is_closed last →
  q ∈ client_tailq_head w → q ≠ p →
  Forall is_data chunks' → ¬ is_data last' →
  ∃ w' w'' tr,
    read_cb rv1 p ev1 (chunks ++ last :: rest) w = Some w'
    ∧ read_cb rv2 q ev2 (chunks' ++ last' :: rest') w' = Some w''
    ∧ out w'' = out w' ++ tr
    ∧ delivered (socketd c) (attempts tr) = []
    ∧ ∀ y, y ∈ client_tailq_head w → y ≠ p → y ≠ q →
        delivered (socket_of w y) (attempts tr) = map received chunks'.
Proof.
  intros Hc Hpc Hdata Hlast Hqin Hne Hdata' Hlast'.
  pose proof (consistent_queue_allocated w Hc) as Hq.
  destruct (read_cb_run rv1 w p c ev1 chunks Hq Hpc Hdata)
    as (t1 & _ & _ & Hcl).
  set (w' := torn_down p (socketd c) (append_out t1 w)).
  assert (consistent w') as Hc'
    by (apply torn_down_consistent; [by apply consistent_append | done]).
  assert (q ∈ client_tailq_head w') as Hqin'
    by (by apply elem_of_torn_down_queue).
  destruct (proj1 (cons_alloc w' Hc' q) Hqin') as [d Hd].
  destruct (read_cb_run rv2 w' q d ev2 chunks'
              (consistent_queue_allocated w' Hc') Hd Hdata')
    as (tr & Hatt & Hwb & Hcl').
  assert (∃ w'', read_cb rv2 q ev2 (chunks' ++ last' :: rest') w' = Some w''
                 ∧ out w'' = out w' ++ tr) as (w'' & Hrun & Hout).
  { destruct (not_data_cases last' Hlast') as [H|H].
    - eexists. split; [by apply Hwb | done].
    - eexists. split; [by apply Hcl' | done]. }
  exists w', w'', tr. split; [by apply Hcl|]. split; [done|].
  split; [done|]. rewrite Hatt. split.
  - rewrite delivered_flat_map, <- (flat_map_nil (B := list byte) chunks').
    apply flat_map_ext. intros r. unfold fan_out.
    apply delivered_map_none. intros y Hy.
    apply list_elem_of_filter in Hy as [_ Hy]. unfold w' in Hy |- *.
    apply elem_of_torn_down_queue in Hy as [Hy Hyp].
    rewrite (socket_of_torn_down p (socketd c) _ y Hyp).
    destruct (proj1 (cons_alloc w Hc y) Hy) as [dy Hdy].
    unfold socket_of. cbn. rewrite Hdy. cbn. intros Heq.
    apply Hyp. by apply (cons_inj w Hc y p dy c).
  - intros y Hy Hyp Hyq.
    change (socket_of w y) with (socket_of (append_out t1 w) y).
    rewrite <- (socket_of_torn_down p (socketd c) (append_out t1 w) y Hyp).
    apply (delivered_fan_out w' q y chunks' Hc'); [|done].
    by apply elem_of_torn_down_queue.
Qed.

(** X8. [WSAGetLastError()] is looked at only after a [recv] that returned
    a negative value: an error code left over from an earlier call changes
    nothing when [recv] returns data or 0, so an orderly close is torn
    down even if the last error reads [WSAEWOULDBLOCK]. *)
Theorem read_cb_error_code_only_after_failure send_rv p revents a a' w :
  Forall2 same_answer a a' →
  read_cb send_rv p revents a w = read_cb send_rv p revents a' w.
Proof.
  unfold read_cb. intros Hsame. revert w.
  induction Hsame as [|r r' a a' (Hrv & Hbuf & Herr) _ IH]; intros w; [done|].
  cbn [read_loop]. destruct (heap w !! p) as [c|]; [|done].
  cbn [mbind option_bind]. rewrite <- Hrv, <- Hbuf.
  destruct (decide (recv_rv r < 0)) as [Hneg|Hpos].
  - rewrite <- (Herr Hneg). repeat case_decide; try done; lia.
  - rewrite !(decide_False (P := recv_rv r < 0 ∧ _)) by (intros [? _]; lia).
    case_decide; [done|].
    destruct (foreach_send _ _ _ _ _ _) as [w1|]; [|done].
    cbn [mbind option_bind]. apply IH.
Qed.

(** ** More on the accept handler, the start-up and the loop *)

Section MorePlatformFacts.

Variable FormatMessageA : Z → string.
Variable strerror : Z → string.
Variable inet_ntoa : Z → string.

Local Abbreviation accept_cb := (accept_cb FormatMessageA strerror inet_ntoa).
Local Abbreviation main := (main FormatMessageA).
Local Abbreviation reachable := (reachable FormatMessageA strerror inet_ntoa).
Local Abbreviation socket_error_line := (socket_error_line FormatMessageA).

(** Two states with the same fields are the same state. *)
Lemma world_eq w1 w2 :
  client_tailq_head w1 = client_tailq_head w2 → heap w1 = heap w2 →
  w_accept w1 = w_accept w2 → loop_accept w1 = loop_accept w2 →
  loop_clients w1 = loop_clients w2 → sockets w1 = sockets w2 →
  out w1 = out w2 → w1 = w2.
Proof. destruct w1, w2. cbn. by intros -> -> -> -> -> -> ->. Qed.

(** X9. On an error event the handler does not call [accept]: it prints
    "Got invalid event" and returns, and a connection that is pending
    stays pending; no socket is opened and nothing else changes. *)
Theorem accept_cb_error_event_accepts_nothing revents env w :
  Z.land EV_ERROR revents ≠ 0 →
  out (accept_cb revents env w)
  = out w ++ [Stderr ("Got invalid event" +:+ ": "
                      +:+ strerror (acc_errno env) +:+ nl)]
  ∧ sockets (accept_cb revents env w) = sockets w
  ∧ client_tailq_head (accept_cb revents env w) = client_tailq_head w
  ∧ heap (accept_cb revents env w) = heap w
  ∧ loop_clients (accept_cb revents env w) = loop_clients w
  ∧ loop_accept (accept_cb revents env w) = loop_accept w
  ∧ w_accept (accept_cb revents env w) = w_accept w.
Proof.
  intros H.
  by rewrite (accept_cb_invalid_event FormatMessageA strerror inet_ntoa
                revents env w H).
Qed.

(** X10. Whichever way the accept handler goes, with the system handing
    out a socket and a block that were not in use, it leaves the
    connections that exist alone: the queue only grows at the tail, no
    object, socket or watcher is removed or changed, the listener is as it
    was, and exactly one line is printed: one of the three diagnostics on
    stderr or the notice on stdout. *)
Theorem accept_cb_spares_connections revents env w :
  env_ok (AcceptReady revents env) w →
  w_accept (accept_cb revents env w) = w_accept w
  ∧ loop_accept (accept_cb revents env w) = loop_accept w
  ∧ client_tailq_head w `prefix_of` client_tailq_head (accept_cb revents env w)
  ∧ heap w ⊆ heap (accept_cb revents env w)
  ∧ sockets w ⊆ sockets (accept_cb revents env w)
  ∧ loop_clients w ⊆ loop_clients (accept_cb revents env w)
  ∧ ∃ e, out (accept_cb revents env w) = out w ++ [e]
         ∧ e ∈ [Stderr ("Got invalid event" +:+ ": "
                        +:+ strerror (acc_errno env) +:+ nl);
                Stderr ("Accept error" +:+ ": "
                        +:+ FormatMessageA (acc_wsa_error env) +:+ nl);
                Stderr ("malloc failed" +:+ ": "
                        +:+ strerror (acc_errno env) +:+ nl);
                accepted_notice inet_ntoa (acc_addr env)].
Proof.
  intros (_ & Hsock & Hfresh).
  destruct (decide (Z.land EV_ERROR revents = 0)) as [Hev|Hev].
  2:{ rewrite (accept_cb_invalid_event FormatMessageA strerror inet_ntoa
                 revents env w Hev).
      cbn. repeat (split; [done|]). eexists. split; [done|]. by left. }
  destruct (decide (acc_socket env = INVALID_SOCKET)) as [Hs|Hs].
  { rewrite (accept_cb_accept_fails FormatMessageA strerror inet_ntoa
               revents env w Hev Hs).
    cbn. repeat (split; [done|]). eexists. split; [done|]. right. by left. }
  destruct (decide (acc_calloc env = NULL)) as [Hp|Hp].
  { rewrite (accept_cb_calloc_fails FormatMessageA strerror inet_ntoa
               revents env w Hev Hs Hp).
    cbn. repeat (split; [done|]).
    split; [by apply insert_subseteq|]. split; [done|].
    eexists. split; [done|]. do 2 right. by left. }
  rewrite (accept_cb_registers FormatMessageA strerror inet_ntoa
             revents env w Hev Hs Hp).
  cbn. repeat (split; [done|]).
  split; [by eexists|]. split; [by apply insert_subseteq|].
  split; [by apply insert_subseteq|].
  split; [apply union_subseteq_r|].
  eexists. split; [done|]. do 3 right. by left.
Qed.

(** X11. When every call of the start-up succeeds, [main] enters the loop
    with the listening socket non-blocking, with [SO_REUSEADDR], bound to
    port 5555 and listening with a backlog of 5; the watcher of the
    listener is started for read events; no client is known and nothing
    has been printed. *)
Theorem main_start_state env :
  st_socket env ≠ INVALID_SOCKET → st_ioctlsocket env = 0 →
  st_setsockopt env = 0 → st_bind env = 0 → st_listen env = 0 →
  main env
  = Dispatch
      {| client_tailq_head := []; heap := ∅;
         w_accept := {| s_io := {| fd := st_osfhandle env; events := EV_READ |};
                        s_socketd := st_socket env |};
         loop_accept := true; loop_clients := ∅;
         sockets := {[ st_socket env := listener_state ]};
         out := [] |}.
Proof.
  intros Hs Hi Ho Hb Hl. unfold main.
  rewrite decide_False by (intros Hn; by apply Hs).
  rewrite !decide_False by (intros Hn; by apply Hn).
  f_equal. apply world_eq; cbn; try done.
  by rewrite !alter_insert_eq, insert_empty.
Qed.

(** X12. [main] reports the first call of the start-up that fails, in the
    order socket, ioctlsocket, setsockopt, bind, listen, and returns
    [EXIT_FAILURE] without making the calls after it; a listening socket
    that was created is not closed before returning. With no failure
    [main] enters the loop. *)
Theorem main_reports_first_failure env :
  match first_failure env with
  | Some name =>
      ∃ w, main env = Exit EXIT_FAILURE w
           ∧ out w = [socket_error_line name (st_wsa_error env)]
           ∧ loop_accept w = false
           ∧ (name ≠ "socket" → is_Some (sockets w !! st_socket env))
  | None => ∃ w, main env = Dispatch w
  end.
Proof.
  unfold first_failure, startup_calls, main.
  destruct (decide (st_socket env = INVALID_SOCKET)) as [H1|H1].
  { rewrite (bool_decide_eq_true_2 _ H1), filter_cons_True by done.
    rewrite decide_True by done. cbn. eexists. by repeat split. }
  rewrite (bool_decide_eq_false_2 _ H1), filter_cons_False by done.
  rewrite (decide_False (P := INVALID_SOCKET = _)) by (intros Hn; by apply H1).
  destruct (decide (st_ioctlsocket env ≠ 0)) as [H2|H2].
  { rewrite (bool_decide_eq_true_2 _ H2), filter_cons_True by done.
    rewrite decide_True by (intros Hn; by apply H2). cbn.
    eexists. repeat split. intros _. cbn. by rewrite lookup_insert_eq. }
  rewrite (bool_decide_eq_false_2 _ H2), filter_cons_False by done.
  rewrite (decide_False (P := 0 ≠ st_ioctlsocket env))
    by (intros Hn; apply H2; intros Hz; by apply Hn).
  destruct (decide (st_setsockopt env ≠ 0)) as [H3|H3].
  { rewrite (bool_decide_eq_true_2 _ H3), filter_cons_True by done.
    rewrite decide_True by (intros Hn; by apply H3). cbn.
    eexists. repeat split. intros _. cbn.
    by rewrite !lookup_alter_eq, lookup_insert_eq. }
  rewrite (bool_decide_eq_false_2 _ H3), filter_cons_False by done.
  rewrite (decide_False (P := 0 ≠ st_setsockopt env))
    by (intros Hn; apply H3; intros Hz; by apply Hn).
  destruct (decide (st_bind env ≠ 0)) as [H4|H4].
  { rewrite (bool_decide_eq_true_2 _ H4), filter_cons_True by done.
    rewrite decide_True by (intros Hn; by apply H4). cbn.
    eexists. repeat split. intros _. cbn.
    by rewrite !lookup_alter_eq, lookup_insert_eq. }
  rewrite (bool_decide_eq_false_2 _ H4), filter_cons_False by done.
  rewrite (decide_False (P := 0 ≠ st_bind env))
    by (intros Hn; apply H4; intros Hz; by apply Hn).
  destruct (decide (st_listen env ≠ 0)) as [H5|H5].
  { rewrite (bool_decide_eq_true_2 _ H5), filter_cons_True by done.
    rewrite decide_True by (intros Hn; by apply H5). cbn.
    eexists. repeat split. intros _. cbn.
    by rewrite !lookup_alter_eq, lookup_insert_eq. }
  rewrite (bool_decide_eq_false_2 _ H5), filter_cons_False by done.
  rewrite (decide_False (P := 0 ≠ st_listen env))
    by (intros Hn; apply H5; intros Hz; by apply Hn).
  cbn. by eexists.
Qed.

Lemma listener_ok_append tr w : listener_ok w → listener_ok (append_out tr w).
Proof. done. Qed.

Lemma listener_ok_main env w : main env = Dispatch w → listener_ok w.
Proof.
  unfold main. repeat case_decide; try discriminate.
  intros Hw. injection Hw as <-. unfold listener_ok. cbn.
  rewrite !lookup_alter_eq, lookup_insert_eq. by repeat split.
Qed.

Lemma listener_ok_accept_cb revents env w :
  listener_ok w → env_ok (AcceptReady revents env) w →
  listener_ok (accept_cb revents env w).
Proof.
  intros (Hl & Hs & He & Hh) (_ & Hsock & Hfresh).
  assert (acc_socket env ≠ s_socketd (w_accept w)) as Hne by congruence.
  destruct (decide (Z.land EV_ERROR revents = 0)) as [Hev|Hev];
    [|by rewrite (accept_cb_invalid_event FormatMessageA strerror inet_ntoa
                    revents env w Hev)].
  destruct (decide (acc_socket env = INVALID_SOCKET)) as [Hi|Hi];
    [by rewrite (accept_cb_accept_fails FormatMessageA strerror inet_ntoa
                   revents env w Hev Hi)|].
  destruct (decide (acc_calloc env = NULL)) as [Hp|Hp].
  { rewrite (accept_cb_calloc_fails FormatMessageA strerror inet_ntoa
               revents env w Hev Hi Hp).
    unfold listener_ok. cbn. by rewrite lookup_insert_ne. }
  rewrite (accept_cb_registers FormatMessageA strerror inet_ntoa
             revents env w Hev Hi Hp).
  unfold listener_ok. cbn. rewrite lookup_insert_ne by done.
  repeat (split; [done|]). intros q c.
  destruct (decide (q = acc_calloc env)) as [->|Hq].
  - rewrite lookup_insert_eq. by intros [= <-].
  - rewrite lookup_insert_ne by done. apply Hh.
Qed.

Lemma listener_ok_read_loop send_rv p answers w w' :
  listener_ok w → read_loop send_rv p answers w = Some w' → listener_ok w'.
Proof.
  intros (Hl & Hs & He & Hh) (c & tr & Hp & _ & [->| ->])%read_loop_inv;
    [done|].
  unfold listener_ok. cbn.
  rewrite lookup_delete_ne by (by apply (Hh p)).
  repeat (split; [done|]). intros q d.
  destruct (decide (q = p)) as [->|Hq].
  - by rewrite lookup_delete_eq.
  - rewrite lookup_delete_ne by done. apply Hh.
Qed.

(** X13. The listener outlives every connection: in every state that the
    loop reaches, its watcher is started for read events and its socket
    is open, non-blocking, with [SO_REUSEADDR], bound to port 5555 with a
    backlog of 5; no callback closes or reconfigures it, and no client
    shares its socket. *)
Theorem reachable_listener_stays w : reachable w → listener_ok w.
Proof.
  induction 1 as [env w Hmain|w cb w' _ IH Hok Hstep].
  - by apply (listener_ok_main env).
  - destruct cb as [revents env|watcher revents answers send_rv]; cbn in Hstep.
    + injection Hstep as <-. by apply listener_ok_accept_cb.
    + by apply (listener_ok_read_loop send_rv watcher answers w).
Qed.

Lemma fan_out_after_accept env w p data :
  consistent w → heap w !! acc_calloc env = None →
  p ∈ client_tailq_head w →
  fan_out
    {| client_tailq_head := client_tailq_head w ++ [acc_calloc env];
       heap := <[acc_calloc env := new_client env]> (heap w);
       w_accept := w_accept w; loop_accept := loop_accept w;
       loop_clients := {[acc_calloc env]} ∪ loop_clients w;
       sockets := <[acc_socket env := acc_state env]> (sockets w);
       out := out w ++ [accepted_notice inet_ntoa (acc_addr env)] |}
    p (client_tailq_head w ++ [acc_calloc env]) data
  = fan_out w p (client_tailq_head w) data ++ [(acc_socket env, data)].
Proof.
  intros Hc Hfresh Hp.
  assert (∀ y, y ∈ client_tailq_head w → y ≠ acc_calloc env) as Hold.
  { intros y Hy ->. apply (cons_alloc w Hc) in Hy as [c Hy]. congruence. }
  unfold fan_out. rewrite filter_app, map_app. f_equal.
  - apply map_ext_in. intros y Hy%list_elem_of_In.
    apply list_elem_of_filter in Hy as [_ Hy].
    unfold socket_of. cbn. by rewrite lookup_insert_ne by (symmetry; auto).
  - rewrite filter_cons_True by (intros Heq; by apply (Hold p)).
    cbn. unfold socket_of. cbn. by rewrite lookup_insert_eq.
Qed.

(** X14. A client that has just been accepted is relayed to from then on:
    in the state after a successful [accept_cb], an invocation of
    [read_cb] for a client that was connected before sends each chunk to
    the same clients as it would have before, in the same order, and then
    to the socket that was accepted. *)
Theorem accept_then_relay send_rv revents env w p ev chunks last rest :
  consistent w → env_ok (AcceptReady revents env) w →
  Z.land EV_ERROR revents = 0 → acc_socket env ≠ INVALID_SOCKET →
  acc_calloc env ≠ NULL →
  p ∈ client_tailq_head w → Forall is_data chunks → ¬ is_data last →
  ∃ w' tr,
    read_cb send_rv p ev (chunks ++ last :: rest) (accept_cb revents env w)
    = Some w'
    ∧ out w' = out (accept_cb revents env w) ++ tr
    ∧ attempts tr
      = flat_map
          (λ r, fan_out w p (client_tailq_head w) (received r)
                ++ [(acc_socket env, received r)]) chunks.
Proof.
  intros Hc Hok Hev Hs Hnew Hp Hdata Hlast.
  pose proof (consistent_accept_cb FormatMessageA strerror inet_ntoa
                revents env w Hc Hok) as Hc1.
  destruct Hok as (_ & _ & Hfresh).
  rewrite (accept_cb_registers FormatMessageA strerror inet_ntoa
             revents env w Hev Hs Hnew) in Hc1 |- *.
  set (w1 := {| client_tailq_head := client_tailq_head w ++ [acc_calloc env];
                heap := _ |}) in *.
  assert (p ∈ client_tailq_head w1) as Hp1 by (apply elem_of_app; by left).
  destruct (proj1 (cons_alloc w1 Hc1 p) Hp1) as [c Hpc].
  destruct (read_cb_run send_rv w1 p c ev chunks
              (consistent_queue_allocated w1 Hc1) Hpc Hdata)
    as (tr & Hatt & Hwb & Hcl).
  assert (∃ w', read_cb send_rv p ev (chunks ++ last :: rest) w1 = Some w'
                ∧ out w' = out w1 ++ tr) as (w' & Hrun & Hout).
  { destruct (not_data_cases last Hlast) as [H|H].
    - eexists. split; [by apply Hwb | done].
    - eexists. split; [by apply Hcl | done]. }
  exists w', tr. split; [done|]. split; [done|].
  rewrite Hatt. apply flat_map_ext. intros r.
  by apply fan_out_after_accept.
Qed.

Lemma unowned_accept_cb revents env w s st :
  unowned w s st → env_ok (AcceptReady revents env) w →
  unowned (accept_cb revents env w) s st.
Proof.
  intros (Hs & Hh) (_ & Hsock & Hfresh).
  assert (acc_socket env ≠ s) as Hne by congruence.
  destruct (decide (Z.land EV_ERROR revents = 0)) as [Hev|Hev];
    [|by rewrite (accept_cb_invalid_event FormatMessageA strerror inet_ntoa
                    revents env w Hev)].
  destruct (decide (acc_socket env = INVALID_SOCKET)) as [Hi|Hi];
    [by rewrite (accept_cb_accept_fails FormatMessageA strerror inet_ntoa
                   revents env w Hev Hi)|].
  destruct (decide (acc_calloc env = NULL)) as [Hp|Hp].
  { rewrite (accept_cb_calloc_fails FormatMessageA strerror inet_ntoa
               revents env w Hev Hi Hp).
    unfold unowned. cbn. by rewrite lookup_insert_ne. }
  rewrite (accept_cb_registers FormatMessageA strerror inet_ntoa
             revents env w Hev Hi Hp).
  unfold unowned. cbn. rewrite lookup_insert_ne by done.
  split; [done|]. intros q c.
  destruct (decide (q = acc_calloc env)) as [->|Hq].
  - rewrite lookup_insert_eq. by intros [= <-].
  - rewrite lookup_insert_ne by done. apply Hh.
Qed.

Lemma unowned_read_loop send_rv p answers w w' s st :
  unowned w s st → read_loop send_rv p answers w = Some w' → unowned w' s st.
Proof.
  intros (Hs & Hh) (c & tr & Hp & _ & [->| ->])%read_loop_inv; [done|].
  unfold unowned. cbn.
  rewrite lookup_delete_ne by (by apply (Hh p)).
  split; [done|]. intros q d.
  destruct (decide (q = p)) as [->|Hq].
  - by rewrite lookup_delete_eq.
  - rewrite lookup_delete_ne by done. apply Hh.
Qed.

(** X15. The program closes no socket but the one of the client it tears
    down: a socket that is open and held by no client object, such as the
    one that [accept_cb] leaves behind when [calloc] fails, stays open in
    the same state and stays without a holder through every later
    callback. *)
Theorem unowned_socket_stays_open w w' s st :
  unowned w s st → follows FormatMessageA strerror inet_ntoa w w' →
  unowned w' s st.
Proof.
  intros Hu. induction 1 as [|w1 cb w2 _ IH Hok Hstep]; [done|].
  destruct cb as [revents env|watcher revents answers send_rv]; cbn in Hstep.
  - injection Hstep as <-. by apply unowned_accept_cb.
  - by apply (unowned_read_loop send_rv watcher answers w1).
Qed.

Lemma listener_ok_reachable w : reachable w → listener_ok w.
Proof.
  induction 1 as [env w Hmain|w cb w' _ IH Hok Hstep].
  - by apply (listener_ok_main env).
  - destruct cb as [revents env|watcher revents answers send_rv]; cbn in Hstep.
    + injection Hstep as <-. by apply listener_ok_accept_cb.
    + by apply (listener_ok_read_loop send_rv watcher answers w).
Qed.

(** C4. Every accepted socket is in non-blocking mode when its client is
    registered, and already when [accept] returns it. [accept_cb] makes
    no call of its own for that: [main] has set the listening socket
    non-blocking, no callback changes that, and the socket that [accept]
    returns has the mode of the listening socket. So whenever the handler
    links a client it did not know and starts its watcher, the socket of
    that client is non-blocking. *)
Theorem accept_cb_registers_nonblocking revents env w :
  reachable w → env_ok (AcceptReady revents env) w →
  accept_inherits (s_socketd (w_accept w)) env w →
  registers_nonblocking FormatMessageA strerror inet_ntoa revents env w
  ∧ (Z.land EV_ERROR revents = 0 → acc_socket env ≠ INVALID_SOCKET →
     nonblocking
       <$> sockets (accept (s_socketd (w_accept w)) env w).2 !! acc_socket env
     = Some true)
  ∧ (Z.land EV_ERROR revents = 0 → acc_socket env ≠ INVALID_SOCKET →
     acc_calloc env ≠ NULL →
     (acc_calloc env ∉ client_tailq_head w)
     ∧ acc_calloc env ∈ client_tailq_head (accept_cb revents env w)
     ∧ acc_calloc env ∈ loop_clients (accept_cb revents env w)
     ∧ socket_of (accept_cb revents env w) (acc_calloc env) = acc_socket env
     ∧ nonblocking <$> sockets (accept_cb revents env w) !! acc_socket env
       = Some true).
Proof.
  intros Hr (_ & Hsock & Hfresh) Hmode.
  pose proof (reachable_consistent FormatMessageA strerror inet_ntoa w Hr)
    as Hc.
  destruct (listener_ok_reachable w Hr) as (_ & Hls & _ & _).
  unfold accept_inherits in Hmode. rewrite Hls in Hmode. cbn in Hmode.
  assert (nonblocking (acc_state env) = true) as Hnb by congruence.
  assert (acc_calloc env ∉ client_tailq_head w) as Hnew.
  { intros Hin. apply (cons_alloc w Hc) in Hin as [c Hin]. congruence. }
  split; [|split].
  - intros p c Hnot Hin Hheap.
    destruct (decide (Z.land EV_ERROR revents = 0)) as [Hev|Hev].
    2:{ rewrite (accept_cb_invalid_event FormatMessageA strerror inet_ntoa
                   revents env w Hev) in Hin. by elim Hnot. }
    destruct (decide (acc_socket env = INVALID_SOCKET)) as [Hs|Hs].
    { rewrite (accept_cb_accept_fails FormatMessageA strerror inet_ntoa
                 revents env w Hev Hs) in Hin. by elim Hnot. }
    destruct (decide (acc_calloc env = NULL)) as [Hp|Hp].
    { rewrite (accept_cb_calloc_fails FormatMessageA strerror inet_ntoa
                 revents env w Hev Hs Hp) in Hin. by elim Hnot. }
    rewrite (accept_cb_registers FormatMessageA strerror inet_ntoa
               revents env w Hev Hs Hp) in Hin, Hheap |- *.
    cbn in Hin, Hheap |- *.
    apply elem_of_app in Hin as [Hin|Hin%list_elem_of_singleton];
      [by elim Hnot|].
    subst p. rewrite lookup_insert_eq in Hheap. injection Hheap as <-.
    cbn. rewrite lookup_insert_eq. cbn. by rewrite Hnb.
  - intros Hev Hs. unfold accept. rewrite (decide_False _ _ Hs). cbn.
    rewrite lookup_insert_eq. cbn. by rewrite Hnb.
  - intros Hev Hs Hp.
    rewrite (accept_cb_registers FormatMessageA strerror inet_ntoa
               revents env w Hev Hs Hp).
    unfold socket_of. cbn. rewrite !lookup_insert_eq. cbn.
    split; [done|].
    split; [apply elem_of_app; right; by left|].
    split; [apply elem_of_union_l; by apply elem_of_singleton|].
    split; [done|]. by rewrite Hnb.
Qed.

Lemma accept_cb_keeps_objects revents env w p c :
  env_ok (AcceptReady revents env) w → heap w !! p = Some c →
  heap (accept_cb revents env w) !! p = Some c.
Proof.
  intros (_ & _ & Hfresh) Hp.
  destruct (decide (Z.land EV_ERROR revents = 0)) as [Hev|Hev];
    [|by rewrite (accept_cb_invalid_event FormatMessageA strerror inet_ntoa
                    revents env w Hev)].
  destruct (decide (acc_socket env = INVALID_SOCKET)) as [Hs|Hs];
    [by rewrite (accept_cb_accept_fails FormatMessageA strerror inet_ntoa
                   revents env w Hev Hs)|].
  destruct (decide (acc_calloc env = NULL)) as [Hn|Hn];
    [by rewrite (accept_cb_calloc_fails FormatMessageA strerror inet_ntoa
                   revents env w Hev Hs Hn)|].
  rewrite (accept_cb_registers FormatMessageA strerror inet_ntoa
             revents env w Hev Hs Hn).
  cbn. rewrite lookup_insert_ne; [done|]. congruence.
Qed.

(** C9. In every state that the loop reaches from the start-up by accept
    and read callbacks: no client is linked twice; a client is linked in
    the queue exactly when it is an allocated object whose socket is open
    and whose watcher is started; there is no started watcher and no
    allocated object outside the queue, and no two clients share a socket.
    And over every callback from such a state each client either stays
    linked with its object, its watcher started and its socket open, or
    ends unlinked with its object freed, its watcher stopped and its
    socket closed. *)
Theorem reachable_registry_invariant w :
  reachable w →
  NoDup (client_tailq_head w)
  ∧ (∀ p,
       p ∈ client_tailq_head w
       ↔ (∃ c, heap w !! p = Some c ∧ is_Some (sockets w !! socketd c))
         ∧ p ∈ loop_clients w)
  ∧ (∀ p, p ∈ loop_clients w → p ∈ client_tailq_head w)
  ∧ (∀ p, is_Some (heap w !! p) → p ∈ client_tailq_head w)
  ∧ (∀ p q c d,
       heap w !! p = Some c → heap w !! q = Some d →
       socketd c = socketd d → p = q)
  ∧ (∀ cb w',
       env_ok cb w →
       dispatch FormatMessageA strerror inet_ntoa cb w = Some w' →
       ∀ p c, heap w !! p = Some c →
         (p ∈ client_tailq_head w' ∧ heap w' !! p = Some c
          ∧ p ∈ loop_clients w' ∧ is_Some (sockets w' !! socketd c))
         ∨ ((p ∉ client_tailq_head w') ∧ heap w' !! p = None
            ∧ (p ∉ loop_clients w') ∧ sockets w' !! socketd c = None)).
Proof.
  intros Hr.
  pose proof (reachable_consistent FormatMessageA strerror inet_ntoa w Hr)
    as Hc.
  split; [apply (cons_nodup w Hc)|]. split.
  { intros p. split.
    - intros Hin. split; [|by apply (cons_watch w Hc)].
      apply (cons_alloc w Hc) in Hin as [c Hp].
      exists c. split; [done|]. by apply (cons_open w Hc p).
    - intros [_ Hw]. by apply (cons_watch w Hc). }
  split; [intros p; apply (cons_watch w Hc)|].
  split; [intros p; apply (cons_alloc w Hc)|].
  split; [apply (cons_inj w Hc)|].
  intros cb w' Hok Hstep p c Hp.
  destruct cb as [revents env|watcher revents answers send_rv]; cbn in Hstep.
  - injection Hstep as <-. left.
    pose proof (consistent_accept_cb FormatMessageA strerror inet_ntoa
                  revents env w Hc Hok) as Hc'.
    pose proof (accept_cb_keeps_objects revents env w p c Hok Hp) as Hp'.
    split; [apply (cons_alloc _ Hc'); by exists c|]. split; [done|].
    split; [apply (cons_watch _ Hc'), (cons_alloc _ Hc'); by exists c|].
    by apply (cons_open _ Hc' p).
  - apply read_loop_inv in Hstep as (cq & tr & Hq & _ & [->| ->]).
    { left. cbn. split; [apply (cons_alloc w Hc); by exists c|].
      split; [done|].
      split; [apply (cons_watch w Hc), (cons_alloc w Hc); by exists c|].
      by apply (cons_open w Hc p). }
    destruct (decide (p = watcher)) as [->|Hne].
    + right. rewrite Hq in Hp. injection Hp as ->. cbn.
      split; [rewrite list_elem_of_filter; tauto|].
      split; [apply lookup_delete_eq|].
      split; [rewrite elem_of_difference, elem_of_singleton; tauto|].
      apply lookup_delete_eq.
    + left. cbn.
      assert (p ∈ client_tailq_head w) as Hin
        by (apply (cons_alloc w Hc); by exists c).
      split; [by apply list_elem_of_filter|].
      split; [by rewrite lookup_delete_ne|].
      split.
      { apply elem_of_difference. split; [by apply (cons_watch w Hc)|].
        by intros ?%elem_of_singleton. }
      rewrite lookup_delete_ne; [by apply (cons_open w Hc p)|].
      intros Heq. apply Hne. symmetry. by apply (cons_inj w Hc watcher p cq c).
Qed.

End MorePlatformFacts.

(** ** The run of the scenario *)

Module ScenarioFacts.
Import Scenario.

Lemma main_listening : main wsa_text startup_ok = Dispatch listening.
Proof. reflexivity. Qed.

Lemma reachable_listening : reachable wsa_text errno_text dotted listening.
Proof. exact (reachable_main _ _ _ startup_ok listening main_listening). Qed.

Lemma reachable_with_abc : reachable wsa_text errno_text dotted with_abc.
Proof.
  apply (reachable_callback _ _ _ with_ab (AcceptReady EV_READ (conn 103 3000)));
    [|by vm_compute|reflexivity].
  apply (reachable_callback _ _ _ with_a (AcceptReady EV_READ (conn 102 2000)));
    [|by vm_compute|reflexivity].
  apply (reachable_callback _ _ _ listening
           (AcceptReady EV_READ (conn 101 1000)));
    [|by vm_compute|reflexivity].
  exact reachable_listening.
Qed.

Lemma reachable_after_b_left :
  reachable wsa_text errno_text dotted after_b_left.
Proof.
  apply (reachable_callback _ _ _ with_abc
           (ReadReady 2000 EV_READ [hung_up] send_all));
    [exact reachable_with_abc|by vm_compute|reflexivity].
Qed.

Lemma consistent_with_abc : consistent with_abc.
Proof. exact (reachable_consistent _ _ _ _ reachable_with_abc). Qed.

Lemma consistent_listening : consistent listening.
Proof. exact (reachable_consistent _ _ _ _ reachable_listening). Qed.

(** The scenario of the specification: A sends "hi", B and C are each sent
    "hi" and A is sent nothing; then B leaves and two clients remain. *)
Example a_says_hi :
  attempts ∘ out <$> read_cb send_all 1000 EV_READ [hi; no_more] with_abc
  = Some [(102, ["h"%byte; "i"%byte]); (103, ["h"%byte; "i"%byte])].
Proof. reflexivity. Qed.

Example b_leaves :
  client_tailq_head <$> read_cb send_all 2000 EV_READ [hung_up] with_abc
  = Some [1000; 3000].
Proof. reflexivity. Qed.

(** *** The theorems at this run *)

Lemma two_chunks : Forall is_data [hi; hi].
Proof. repeat constructor; unfold is_data; cbn; lia. Defined.

Lemma no_more_is_no_data : ¬ is_data no_more.
Proof. unfold is_data; cbn; lia. Defined.

Lemma a_is_linked : 1000 ∈ client_tailq_head with_abc.
Proof. vm_compute. left. Defined.

Lemma read_cb_relays_to_others_witness :
  ∃ w' tr,
    read_cb send_all 1000 EV_READ ([hi; hi] ++ no_more :: []) with_abc
    = Some w'
    ∧ out w' = out with_abc ++ tr
    ∧ attempts tr
      = flat_map
          (λ r, fan_out with_abc 1000 (client_tailq_head with_abc)
                  (received r)) [hi; hi]
    ∧ (∀ q, q ∈ client_tailq_head with_abc → q ≠ 1000 →
         delivered (socket_of with_abc q) (attempts tr)
         = map received [hi; hi])
    ∧ delivered (socket_of with_abc 1000) (attempts tr) = [].
Proof.
  exact (read_cb_relays_to_others send_all with_abc 1000 EV_READ [hi; hi]
           no_more [] consistent_with_abc a_is_linked two_chunks
           no_more_is_no_data).
Defined.

Lemma read_cb_tears_down_witness :
  ∃ w',
    (∀ rest, read_cb send_all 2000 EV_READ ([hi; hi] ++ reset :: rest) with_abc
             = Some w')
    ∧ (2000 ∉ loop_clients w')
    ∧ loop_clients w' = loop_clients with_abc ∖ {[2000]}
    ∧ (2000 ∉ client_tailq_head w')
    ∧ client_tailq_head w'
      = filter (λ q, q ≠ 2000) (client_tailq_head with_abc)
    ∧ sockets w' !! socketd client_b = None
    ∧ sockets w' = delete (socketd client_b) (sockets with_abc)
    ∧ heap w' !! 2000 = None ∧ heap w' = delete 2000 (heap with_abc)
    ∧ (∃ tr, out w' = out with_abc ++ tr
        ∧ attempts tr
          = flat_map
              (λ r, fan_out with_abc 2000 (client_tailq_head with_abc)
                      (received r)) [hi; hi]).
Proof.
  apply (read_cb_tears_down send_all with_abc 2000 client_b EV_READ [hi; hi]
           reset consistent_with_abc).
  - reflexivity.
  - exact two_chunks.
  - right. split; [cbn; lia | vm_compute; discriminate].
Defined.

Lemma read_cb_would_block_keeps_state_witness :
  ∃ w',
    (∀ rest, read_cb send_all 1000 EV_READ ([hi; hi] ++ no_more :: rest)
               with_abc = Some w')
    ∧ client_tailq_head w' = client_tailq_head with_abc
    ∧ heap w' = heap with_abc
    ∧ loop_clients w' = loop_clients with_abc
    ∧ loop_accept w' = loop_accept with_abc
    ∧ sockets w' = sockets with_abc
    ∧ 1000 ∈ client_tailq_head w' ∧ 1000 ∈ loop_clients w'
    ∧ is_Some (sockets w' !! socketd client_a)
    ∧ ([hi; hi] = [] → w' = with_abc).
Proof.
  apply (read_cb_would_block_keeps_state send_all with_abc 1000 client_a
           EV_READ [hi; hi] no_more consistent_with_abc).
  - reflexivity.
  - exact two_chunks.
  - split; [cbn; lia | reflexivity].
Defined.

Lemma send_results_are_ignored_witness :
  ∃ w1 w2 tr1,
    read_cb send_fails 1000 EV_READ ([hi; hi] ++ no_more :: []) with_abc
    = Some w1
    ∧ read_cb send_all 1000 EV_READ ([hi; hi] ++ no_more :: []) with_abc
      = Some w2
    ∧ erase w1 = erase w2
    ∧ out w1 = out with_abc ++ tr1
    ∧ attempts tr1
      = flat_map
          (λ r, fan_out with_abc 1000 (client_tailq_head with_abc)
                  (received r)) [hi; hi].
Proof.
  exact (send_results_are_ignored send_fails send_all with_abc 1000 EV_READ
           [hi; hi] no_more [] consistent_with_abc a_is_linked two_chunks
           no_more_is_no_data).
Defined.

(** C5, the claim as stated fails: [accept] succeeds, [calloc] returns
    [NULL], and no client is linked. *)
Lemma accept_cb_without_memory_adds_no_peer :
  ¬ accept_adds_peer wsa_text errno_text dotted EV_READ conn_no_memory
      listening.
Proof.
  intros Hclaim.
  destruct Hclaim as (p & c & Hq & _).
  - reflexivity.
  - vm_compute; discriminate.
  - vm_compute in Hq. discriminate.
Qed.

Lemma accept_cb_adds_one_peer_witness :
  (1000 ∉ client_tailq_head listening)
  ∧ client_tailq_head (accept_one (conn 101 1000) listening)
    = client_tailq_head listening ++ [1000]
  ∧ heap (accept_one (conn 101 1000) listening)
    = <[1000 := new_client (conn 101 1000)]> (heap listening)
  ∧ socket_of (accept_one (conn 101 1000) listening) 1000 = 101
  ∧ loop_clients (accept_one (conn 101 1000) listening)
    = {[1000]} ∪ loop_clients listening
  ∧ loop_accept (accept_one (conn 101 1000) listening)
    = loop_accept listening
  ∧ out (accept_one (conn 101 1000) listening)
    = out listening ++ [accepted_notice dotted 16777343].
Proof.
  apply (accept_cb_adds_one_peer wsa_text errno_text dotted EV_READ
           (conn 101 1000) listening consistent_listening).
  - by vm_compute.
  - reflexivity.
  - vm_compute; discriminate.
  - vm_compute; discriminate.
Defined.

Lemma accept_cb_failed_accept_witness :
  out (accept_one conn_refused with_abc)
  = out with_abc ++ [Stderr ("Accept error" +:+ ": " +:+ wsa_text 10024
                             +:+ nl)]
  ∧ client_tailq_head (accept_one conn_refused with_abc)
    = client_tailq_head with_abc
  ∧ heap (accept_one conn_refused with_abc) = heap with_abc
  ∧ loop_clients (accept_one conn_refused with_abc) = loop_clients with_abc
  ∧ loop_accept (accept_one conn_refused with_abc) = loop_accept with_abc
  ∧ w_accept (accept_one conn_refused with_abc) = w_accept with_abc
  ∧ sockets (accept_one conn_refused with_abc) = sockets with_abc.
Proof.
  apply (accept_cb_failed_accept wsa_text errno_text dotted EV_READ
           conn_refused with_abc); reflexivity.
Defined.

Lemma main_startup_failure_witness :
  ∃ w message,
    main wsa_text startup_port_taken = Exit EXIT_FAILURE w
    ∧ EXIT_FAILURE ≠ 0
    ∧ (∀ w', main wsa_text startup_port_taken ≠ Dispatch w')
    ∧ message ∈ ["socket"; "ioctlsocket"; "setsockopt"; "bind"; "listen"]
    ∧ out w = [socket_error_line wsa_text message 10048]
    ∧ loop_accept w = false ∧ loop_clients w = ∅
    ∧ client_tailq_head w = [].
Proof.
  apply (main_startup_failure wsa_text startup_port_taken).
  right. right. right. left. cbn. lia.
Defined.

Lemma reachable_registry_invariant_witness :
  NoDup (client_tailq_head after_b_left)
  ∧ (∀ p,
       p ∈ client_tailq_head after_b_left
       ↔ (∃ c, heap after_b_left !! p = Some c
               ∧ is_Some (sockets after_b_left !! socketd c))
         ∧ p ∈ loop_clients after_b_left)
  ∧ (∀ p, p ∈ loop_clients after_b_left → p ∈ client_tailq_head after_b_left)
  ∧ (∀ p, is_Some (heap after_b_left !! p) → p ∈ client_tailq_head after_b_left)
  ∧ (∀ p q c d,
       heap after_b_left !! p = Some c → heap after_b_left !! q = Some d →
       socketd c = socketd d → p = q)
  ∧ (∀ cb w',
       env_ok cb after_b_left →
       dispatch wsa_text errno_text dotted cb after_b_left = Some w' →
       ∀ p c, heap after_b_left !! p = Some c →
         (p ∈ client_tailq_head w' ∧ heap w' !! p = Some c
          ∧ p ∈ loop_clients w' ∧ is_Some (sockets w' !! socketd c))
         ∨ ((p ∉ client_tailq_head w') ∧ heap w' !! p = None
            ∧ (p ∉ loop_clients w') ∧ sockets w' !! socketd c = None)).
Proof.
  exact (reachable_registry_invariant wsa_text errno_text dotted after_b_left
           reachable_after_b_left).
Defined.

Lemma accept_cb_registers_nonblocking_witness :
  registers_nonblocking wsa_text errno_text dotted EV_READ (conn 104 4000)
    with_abc
  ∧ (Z.land EV_ERROR EV_READ = 0 → acc_socket (conn 104 4000) ≠ INVALID_SOCKET →
     nonblocking
       <$> sockets (accept (s_socketd (w_accept with_abc)) (conn 104 4000)
                      with_abc).2 !! acc_socket (conn 104 4000)
     = Some true)
  ∧ (Z.land EV_ERROR EV_READ = 0 → acc_socket (conn 104 4000) ≠ INVALID_SOCKET →
     acc_calloc (conn 104 4000) ≠ NULL →
     (acc_calloc (conn 104 4000) ∉ client_tailq_head with_abc)
     ∧ acc_calloc (conn 104 4000)
       ∈ client_tailq_head (accept_one (conn 104 4000) with_abc)
     ∧ acc_calloc (conn 104 4000)
       ∈ loop_clients (accept_one (conn 104 4000) with_abc)
     ∧ socket_of (accept_one (conn 104 4000) with_abc)
         (acc_calloc (conn 104 4000))
       = acc_socket (conn 104 4000)
     ∧ nonblocking
         <$> sockets (accept_one (conn 104 4000) with_abc)
             !! acc_socket (conn 104 4000)
       = Some true).
Proof.
  apply (accept_cb_registers_nonblocking wsa_text errno_text dotted EV_READ
           (conn 104 4000) with_abc reachable_with_abc).
  - by vm_compute.
  - reflexivity.
Defined.

(** The handler at work on the rule: the fourth client is linked with its
    socket in non-blocking mode. *)
Example fourth_client_nonblocking :
  client_tailq_head (accept_one (conn 104 4000) with_abc)
  = [1000; 2000; 3000; 4000]
  ∧ nonblocking <$> sockets (accept_one (conn 104 4000) with_abc) !! 104
    = Some true.
Proof. split; reflexivity. Qed.

Lemma accept_cb_failed_calloc_witness :
  out (accept_one conn_no_memory listening)
  = out listening ++ [Stderr ("malloc failed" +:+ ": " +:+ errno_text 12
                              +:+ nl)]
  ∧ client_tailq_head (accept_one conn_no_memory listening)
    = client_tailq_head listening
  ∧ heap (accept_one conn_no_memory listening) = heap listening
  ∧ loop_clients (accept_one conn_no_memory listening)
    = loop_clients listening
  ∧ sockets (accept_one conn_no_memory listening)
    = <[101 := connection true]> (sockets listening)
  ∧ sockets (accept_one conn_no_memory listening) !! 101
    = Some (connection true).
Proof.
  apply (accept_cb_failed_calloc wsa_text errno_text dotted EV_READ
           conn_no_memory listening).
  - reflexivity.
  - vm_compute; discriminate.
  - reflexivity.
Defined.

End ScenarioFacts.

(** ** Further facts at the run of the scenario *)

Module MoreScenarioFacts.
Import Scenario ScenarioFacts.

Lemma reachable_with_a : reachable wsa_text errno_text dotted with_a.
Proof.
  apply (reachable_callback _ _ _ listening
           (AcceptReady EV_READ (conn 101 1000)));
    [exact reachable_listening|by vm_compute|reflexivity].
Qed.

Lemma consistent_with_a : consistent with_a.
Proof. exact (reachable_consistent _ _ _ _ reachable_with_a). Qed.

Lemma hung_up_is_closed : is_closed hung_up.
Proof. by left. Defined.

Lemma hung_up_is_no_data : ¬ is_data hung_up.
Proof. unfold is_data; cbn; lia. Defined.

Lemma one_chunk : Forall is_data [hi].
Proof. repeat constructor; unfold is_data; cbn; lia. Defined.

Lemma no_more_would_block : is_would_block no_more.
Proof. split; [cbn; lia | reflexivity]. Defined.

(** The spec's run again: after B has left, "hi" from A goes to C alone. *)
Example a_says_hi_after_b_left :
  attempts ∘ out <$> read_cb send_all 1000 EV_READ [hi; no_more] after_b_left
  = Some [(103, ["h"%byte; "i"%byte])].
Proof. reflexivity. Qed.

Lemma read_cb_touches_only_its_client_witness :
  w_accept after_b_said_hi_and_left = w_accept with_abc
  ∧ loop_accept after_b_said_hi_and_left = loop_accept with_abc
  ∧ (∀ s, s ≠ socket_of with_abc 2000 →
       sockets after_b_said_hi_and_left !! s = sockets with_abc !! s)
  ∧ (∀ q, q ≠ 2000 →
       heap after_b_said_hi_and_left !! q = heap with_abc !! q
       ∧ (q ∈ loop_clients after_b_said_hi_and_left
          ↔ q ∈ loop_clients with_abc)
       ∧ (q ∈ client_tailq_head after_b_said_hi_and_left
          ↔ q ∈ client_tailq_head with_abc))
  ∧ filter (λ q, q ≠ 2000) (client_tailq_head after_b_said_hi_and_left)
    = filter (λ q, q ≠ 2000) (client_tailq_head with_abc).
Proof.
  apply (read_cb_touches_only_its_client send_all 2000 EV_READ [hi; hung_up]).
  reflexivity.
Defined.

Lemma read_cb_only_sends_witness :
  ∃ tr, out after_b_said_hi_and_left = out with_abc ++ tr
        ∧ Forall is_send tr.
Proof.
  apply (read_cb_only_sends send_all 2000 EV_READ [hi; hung_up]).
  reflexivity.
Defined.

Lemma read_cb_lone_client_witness :
  read_cb send_all 1000 EV_READ ([hi; hi] ++ no_more :: []) with_a
  = Some with_a.
Proof.
  apply (read_cb_lone_client send_all with_a 1000 EV_READ [hi; hi] no_more []).
  - reflexivity.
  - exists client_a. reflexivity.
  - exact two_chunks.
  - exact no_more_would_block.
Defined.

Lemma read_cb_split_events_witness :
  read_cb send_all 1000 EV_READ ([hi] ++ no_more :: []) with_abc
    ≫= read_cb send_all 1000 EV_READ [hi; hung_up]
  = read_cb send_all 1000 EV_READ ([hi] ++ [hi; hung_up]) with_abc.
Proof.
  exact (read_cb_split_events send_all with_abc 1000 EV_READ EV_READ [hi]
           no_more [] [hi; hung_up] consistent_with_abc a_is_linked
           one_chunk no_more_would_block).
Defined.

Lemma read_cb_send_count_witness :
  ∃ w' tr,
    read_cb send_fails 1000 EV_READ ([hi; hi] ++ hung_up :: []) with_abc
    = Some w'
    ∧ out w' = out with_abc ++ tr
    ∧ Forall is_send tr
    ∧ length (attempts tr)
      = (length [hi; hi] * (length (client_tailq_head with_abc) - 1))%nat
    ∧ length tr
      = (length [hi; hi] * (length (client_tailq_head with_abc) - 1))%nat.
Proof.
  exact (read_cb_send_count send_fails with_abc 1000 EV_READ [hi; hi]
           hung_up [] consistent_with_abc a_is_linked two_chunks
           hung_up_is_no_data).
Defined.

Lemma read_cb_teardown_spares_others_witness :
  ∃ w',
    read_cb send_all 2000 EV_READ ([hi] ++ hung_up :: []) with_abc = Some w'
    ∧ consistent w'
    ∧ (length (client_tailq_head w') + 1
       = length (client_tailq_head with_abc))%nat
    ∧ ∀ q, q ∈ client_tailq_head with_abc → q ≠ 2000 →
        q ∈ client_tailq_head w' ∧ q ∈ loop_clients w'
        ∧ heap w' !! q = heap with_abc !! q
        ∧ sockets w' !! socket_of with_abc q
          = sockets with_abc !! socket_of with_abc q
        ∧ is_Some (sockets w' !! socket_of with_abc q).
Proof.
  apply (read_cb_teardown_spares_others send_all with_abc 2000 client_b
           EV_READ [hi] hung_up [] consistent_with_abc).
  - reflexivity.
  - exact one_chunk.
  - exact hung_up_is_closed.
Defined.

Lemma read_cb_after_teardown_witness :
  ∃ w' w'' tr,
    read_cb send_all 2000 EV_READ ([] ++ hung_up :: []) with_abc = Some w'
    ∧ read_cb send_all 1000 EV_READ ([hi; hi] ++ no_more :: []) w' = Some w''
    ∧ out w'' = out w' ++ tr
    ∧ delivered (socketd client_b) (attempts tr) = []
    ∧ ∀ y, y ∈ client_tailq_head with_abc → y ≠ 2000 → y ≠ 1000 →
        delivered (socket_of with_abc y) (attempts tr)
        = map received [hi; hi].
Proof.
  apply (read_cb_after_teardown send_all send_all with_abc 2000 client_b 1000
           EV_READ EV_READ [] hung_up [] [hi; hi] no_more []
           consistent_with_abc).
  - reflexivity.
  - constructor.
  - exact hung_up_is_closed.
  - exact a_is_linked.
  - vm_compute; discriminate.
  - exact two_chunks.
  - exact no_more_is_no_data.
Defined.

Lemma read_cb_error_code_only_after_failure_witness :
  read_cb send_all 2000 EV_READ [hi; hung_up] with_abc
  = read_cb send_all 2000 EV_READ [hi; hung_up_stale] with_abc.
Proof.
  apply (read_cb_error_code_only_after_failure send_all 2000 EV_READ
           [hi; hung_up] [hi; hung_up_stale] with_abc).
  repeat constructor; cbn; lia.
Defined.

Lemma accept_cb_error_event_accepts_nothing_witness :
  out (accept_cb wsa_text errno_text dotted error_event (conn 104 4000)
         with_abc)
  = out with_abc ++ [Stderr ("Got invalid event" +:+ ": " +:+ errno_text 0
                             +:+ nl)]
  ∧ sockets (accept_cb wsa_text errno_text dotted error_event (conn 104 4000)
               with_abc) = sockets with_abc
  ∧ client_tailq_head (accept_cb wsa_text errno_text dotted error_event
                         (conn 104 4000) with_abc)
    = client_tailq_head with_abc
  ∧ heap (accept_cb wsa_text errno_text dotted error_event (conn 104 4000)
            with_abc) = heap with_abc
  ∧ loop_clients (accept_cb wsa_text errno_text dotted error_event
                    (conn 104 4000) with_abc) = loop_clients with_abc
  ∧ loop_accept (accept_cb wsa_text errno_text dotted error_event
                   (conn 104 4000) with_abc) = loop_accept with_abc
  ∧ w_accept (accept_cb wsa_text errno_text dotted error_event
                (conn 104 4000) with_abc) = w_accept with_abc.
Proof.
  apply (accept_cb_error_event_accepts_nothing wsa_text errno_text dotted
           error_event (conn 104 4000) with_abc).
  vm_compute; discriminate.
Defined.

Lemma accept_cb_spares_connections_witness :
  w_accept (accept_one (conn 104 4000) with_abc) = w_accept with_abc
  ∧ loop_accept (accept_one (conn 104 4000) with_abc) = loop_accept with_abc
  ∧ client_tailq_head with_abc
    `prefix_of` client_tailq_head (accept_one (conn 104 4000) with_abc)
  ∧ heap with_abc ⊆ heap (accept_one (conn 104 4000) with_abc)
  ∧ sockets with_abc ⊆ sockets (accept_one (conn 104 4000) with_abc)
  ∧ loop_clients with_abc
    ⊆ loop_clients (accept_one (conn 104 4000) with_abc)
  ∧ ∃ e, out (accept_one (conn 104 4000) with_abc) = out with_abc ++ [e]
         ∧ e ∈ [Stderr ("Got invalid event" +:+ ": " +:+ errno_text 0 +:+ nl);
                Stderr ("Accept error" +:+ ": " +:+ wsa_text 0 +:+ nl);
                Stderr ("malloc failed" +:+ ": " +:+ errno_text 0 +:+ nl);
                accepted_notice dotted 16777343].
Proof.
  apply (accept_cb_spares_connections wsa_text errno_text dotted EV_READ
           (conn 104 4000) with_abc).
  by vm_compute.
Defined.

Lemma main_start_state_witness :
  main wsa_text startup_ok
  = Dispatch
      {| client_tailq_head := []; heap := ∅;
         w_accept := {| s_io := {| fd := 3; events := EV_READ |};
                        s_socketd := 100 |};
         loop_accept := true; loop_clients := ∅;
         sockets := {[ 100 := listener_state ]};
         out := [] |}.
Proof.
  apply (main_start_state wsa_text startup_ok); try reflexivity.
  vm_compute; discriminate.
Defined.

(** [setsockopt] is the first call to fail: it is the one reported, and
    [bind] and [listen], which would fail too, are not. *)
Example main_reports_setsockopt :
  first_failure startup_no_reuse = Some "setsockopt"
  ∧ ∃ w, main wsa_text startup_no_reuse = Exit EXIT_FAILURE w
         ∧ out w = [socket_error_line wsa_text "setsockopt" 10042].
Proof. split; [reflexivity|]. eexists. split; reflexivity. Qed.

Lemma reachable_listener_stays_witness : listener_ok after_b_left.
Proof.
  exact (reachable_listener_stays wsa_text errno_text dotted after_b_left
           reachable_after_b_left).
Defined.

Lemma accept_then_relay_witness :
  ∃ w' tr,
    read_cb send_all 1000 EV_READ ([hi; hi] ++ no_more :: [])
      (accept_cb wsa_text errno_text dotted EV_READ (conn 104 4000) with_abc)
    = Some w'
    ∧ out w'
      = out (accept_cb wsa_text errno_text dotted EV_READ (conn 104 4000)
               with_abc) ++ tr
    ∧ attempts tr
      = flat_map
          (λ r, fan_out with_abc 1000 (client_tailq_head with_abc)
                  (received r)
                ++ [(acc_socket (conn 104 4000), received r)]) [hi; hi].
Proof.
  apply (accept_then_relay wsa_text errno_text dotted send_all EV_READ
           (conn 104 4000) with_abc 1000 EV_READ [hi; hi] no_more []
           consistent_with_abc).
  - by vm_compute.
  - reflexivity.
  - vm_compute; discriminate.
  - vm_compute; discriminate.
  - exact a_is_linked.
  - exact two_chunks.
  - exact no_more_is_no_data.
Defined.

Lemma follows_after_d_left :
  follows wsa_text errno_text dotted out_of_memory after_d_left.
Proof.
  apply (follows_callback _ _ _ _ with_d
           (ReadReady 4000 EV_READ [hi; hung_up] send_all));
    [|by vm_compute|reflexivity].
  apply (follows_callback _ _ _ _ out_of_memory
           (AcceptReady EV_READ (conn 104 4000)));
    [|by vm_compute|reflexivity].
  apply follows_here.
Qed.

Lemma leaked_socket_unowned : unowned out_of_memory 101 (connection true).
Proof.
  split; [reflexivity|]. intros q c Hq. vm_compute in Hq. discriminate.
Defined.

Lemma unowned_socket_stays_open_witness :
  unowned after_d_left 101 (connection true).
Proof.
  exact (unowned_socket_stays_open wsa_text errno_text dotted out_of_memory
           after_d_left 101 (connection true) leaked_socket_unowned
           follows_after_d_left).
Defined.

End MoreScenarioFacts.
